(** * local-rag-endpoint-node: the document-to-vector pipeline and retrieval

    A shallow embedding of the service's core, read from the JavaScript
    sources:

    - [EmbeddingService] ([chunkText], [generateEmbedding],
      [generateEmbeddingsForDocument]);
    - [DocumentService] ([saveDocument], [searchDocuments]) over the two
      SQLite tables [documents] and [embeddings];
    - [Routes] (the handlers of POST /process, POST /search and
      GET /documents) and [Transfer] (POST /upload and POST /download);
    - [TextExtraction] ([extractText] and the readers it dispatches to) and
      [Upload] (the file filter and the storage names of server.js).

    JavaScript strings are lists of characters, JavaScript numbers are IEEE 754
    binary64 values (Rocq's primitive floats), promises are computations in a
    small state-and-exception monad over an explicit [world] (the provider's
    call log, the two tables, the clock). *)

From Stdlib Require Import Ascii String.
From Stdlib Require Import List Arith ZArith Lia Bool.
From Stdlib Require Import Permutation Sorted QArith Floats DecimalString.
Import ListNotations.

Close Scope Q_scope.
Open Scope nat_scope.

Set Warnings "-inexact-float".

(** ** JavaScript strings *)

Module Js.

(** A string is the sequence of its characters; [length] is [.length]. *)
Definition text := list ascii.

Definition lit (s : string) : text := list_ascii_of_string s.

(** [s.slice(b, e)] for non-negative integers [b] and [e]: both ends are
    clamped to the length, and the result is empty when [e <= b]. *)
Definition slice (s : text) (b e : nat) : text := firstn (e - b) (skipn b s).

(** [s.substring(a, b)] for non-negative integers: like [slice], after
    swapping the arguments when [a > b]. *)
Definition substring (s : text) (a b : nat) : text :=
  slice s (Nat.min a b) (Nat.max a b).

(** The element conversion of [new Float32Array(numbers)]: the number rounded
    to the nearest binary32 value (ties to even), which is again a number. *)
Definition fround (x : float) : float :=
  match Prim2SF x with
  | S754_finite s m e =>
      match SpecFloat.binary_round 24 128 s m e with
      | S754_finite s' m' e' => SF2Prim (SpecFloat.binary_round 53 1024 s' m' e')
      | other => SF2Prim other
      end
  | _ => x
  end.

End Js.

(** ** JavaScript numbers and integers

    The page and the limit of a request arrive as JSON integers and become
    JavaScript numbers; the arithmetic on them is that of binary64, and the
    database reads the results back as integers. *)

Module JsInteger.

(** The number an integer literal denotes: the nearest binary64 value, ties
    to even, infinite beyond the range. *)
Definition of_Z (z : Z) : float :=
  SF2Prim (binary_normalize prec emax z 0%Z false).

(** The integer a number is, when it is one: NaN, the infinities and the
    numbers with a fractional part are none. *)
Definition to_Z (x : float) : option Z :=
  match Prim2SF x with
  | S754_zero _ => Some 0%Z
  | S754_finite s m e =>
      let magnitude :=
        if (0 <=? e)%Z then Some (Z.pos m * 2 ^ e)%Z
        else if (Z.pos m mod 2 ^ (- e) =? 0)%Z then Some (Z.pos m / 2 ^ (- e))%Z
        else None in
      match magnitude with
      | Some v => Some (if s then (- v)%Z else v)
      | None => None
      end
  | _ => None
  end.

End JsInteger.

(** ** Arithmetic of the number type

    The averaging code only uses [0], [+], [/], the array length as a number,
    and the value of [sum + undefined] (reading past the end of an array). The
    service runs it on JavaScript numbers ([JsNumber], binary64); [ExactNumber]
    is the same signature over the rationals, used to say what the averaging
    computes when no rounding happens. *)

Class Arith (num : Type) := {
  zero : num;
  add : num -> num -> num;
  div : num -> num -> num;
  of_nat : nat -> num;
  nan : num
}.

#[export] Instance JsNumber : Arith float := {
  zero := 0%float;
  add := PrimFloat.add;
  div := PrimFloat.div;
  of_nat := fun n => PrimFloat.of_uint63 (Uint63.of_Z (Z.of_nat n));
  nan := PrimFloat.nan
}.

(** Rationals with one extra value for NaN ([None]); division by zero is NaN
    (the infinities of binary64 are not represented). *)
Definition exact := option Q.

Definition exact_add (a b : exact) : exact :=
  match a, b with
  | Some x, Some y => Some (Qplus x y)
  | _, _ => None
  end.

Definition exact_div (a b : exact) : exact :=
  match a, b with
  | Some x, Some y => if Qeq_bool y 0 then None else Some (Qdiv x y)
  | _, _ => None
  end.

#[export] Instance ExactNumber : Arith exact := {
  zero := Some 0%Q;
  add := exact_add;
  div := exact_div;
  of_nat := fun n => Some (inject_Z (Z.of_nat n));
  nan := None
}.

(** ** Errors and outcomes of asynchronous code *)

Inductive error :=
| EmbeddingFailed   (* new Error('Failed to generate embedding') *)
| TypeError         (* a property read or a call on undefined *)
| ExtractionFailed  (* thrown by textExtractionService.extractText *)
| DbError.          (* the err argument of a sqlite3 callback *)

(** How an awaited call ends: with a value, with an exception (a rejected
    promise), or not at all. *)
Inductive outcome (A : Type) :=
| Returned (a : A)
| Thrown (e : error)
| Diverged.
Arguments Returned {A} a.
Arguments Thrown {A} e.
Arguments Diverged {A}.

(** ** The world the service runs in

    The rows of the two tables of [database.js]:
    [documents (id, filename, content_preview, upload_date)] and
    [embeddings (id, doc_id, vector)]. *)

Record document_row := {
  doc_id : nat;
  doc_filename : Js.text;
  doc_content_preview : Js.text;
  doc_upload_date : nat
}.

Record embedding_row := {
  emb_id : nat;
  emb_doc_id : nat;
  emb_vector : list float
}.

(** [calls] lists the texts posted to the embedding provider, oldest first;
    [documents_seq] and [embeddings_seq] are the AUTOINCREMENT counters (the
    largest id handed out so far); [clock] is what [datetime("now")] reads. *)
Record world := {
  calls : list Js.text;
  documents : list document_row;
  embeddings : list embedding_row;
  documents_seq : nat;
  embeddings_seq : nat;
  clock : nat
}.

Definition initial_world : world :=
  {| calls := []; documents := []; embeddings := [];
     documents_seq := 0; embeddings_seq := 0; clock := 0 |}.

(** The world after one more POST to the provider. *)
Definition log_call (text : Js.text) (w : world) : world :=
  {| calls := calls w ++ [text];
     documents := documents w; embeddings := embeddings w;
     documents_seq := documents_seq w; embeddings_seq := embeddings_seq w;
     clock := clock w |}.

(** What the embedding provider does with one POST: the request is rejected
    (unreachable, non-2xx), or it is answered and [response.data.embedding] is
    either missing ([None], JavaScript's undefined) or an array of numbers. *)
Inductive reply :=
| Rejects
| Responds (embedding : option (list float)).

(** The collaborators outside the repository's code. [provider] sees the
    calls made before the current one, [extractText] is the text extraction
    service ([None] when it throws) and [file_exists] is [fs.existsSync].
    [db_error] tells whether the next statement sent to SQLite fails.
    [vec_distance_cosine] is the function of the sqlite-vec extension. *)
Record environment := {
  provider : list Js.text -> Js.text -> reply;
  extractText : Js.text -> option Js.text;
  file_exists : Js.text -> bool;
  db_error : world -> bool;
  vec_distance_cosine : list float -> list float -> float
}.

(** ** Asynchronous code: state and exceptions *)

Definition M (A : Type) : Type := world -> outcome A * world.

Definition ret {A} (a : A) : M A := fun w => (Returned a, w).

Definition throw {A} (e : error) : M A := fun w => (Thrown e, w).

Definition bind {A B} (c : M A) (k : A -> M B) : M B :=
  fun w =>
    match c w with
    | (Returned a, w') => k a w'
    | (Thrown e, w') => (Thrown e, w')
    | (Diverged, w') => (Diverged, w')
    end.

(** [try { c } catch (e) { h e }] *)
Definition try_catch {A} (c : M A) (h : error -> M A) : M A :=
  fun w =>
    match c w with
    | (Thrown e, w') => h e w'
    | r => r
    end.

(** A synchronous computation that may throw, run inside an async function. *)
Definition lift {A} (o : outcome A) : M A := fun w => (o, w).

Notation "x <- c ;; k" := (bind c (fun x => k))
  (at level 61, c at next level, right associativity).

(** ** embeddingService.js *)

Module EmbeddingService.
Import Js.

(** [generateEmbedding(text)]: one POST to the provider. Whatever goes wrong
    inside the [try] is rethrown as 'Failed to generate embedding'; a response
    without the field gives undefined. *)
Definition generateEmbedding (env : environment) (text : text)
    : M (option (list float)) :=
  fun w =>
    match provider env (calls w) text with
    | Rejects => (Thrown EmbeddingFailed, log_call text w)
    | Responds embedding => (Returned embedding, log_call text w)
    end.

(** The loop of [chunkText]:
    [for (let i = 0; i < text.length; i += chunkSize) chunks.push(text.slice(i, i + chunkSize))].
    [fuel] bounds the number of iterations; [None] means that the loop
    condition still held when the bound was reached, and no array of chunks
    was returned. *)
Fixpoint chunkText_loop (fuel : nat) (text : text) (chunkSize i : nat)
    (chunks : list Js.text) : option (list Js.text) :=
  if i <? length text then
    match fuel with
    | O => None
    | S fuel' =>
        chunkText_loop fuel' text chunkSize (i + chunkSize)
          (chunks ++ [slice text i (i + chunkSize)])
    end
  else Some chunks.

(** [chunkText(text, chunkSize)] for a positive [chunkSize], the only way the
    service calls it (with the default, 2000): every iteration moves [i]
    forward, so [length text] iterations are enough and the result is
    [Some chunks]. *)
Definition chunkText (text : text) (chunkSize : nat) : option (list Js.text) :=
  chunkText_loop (length text) text chunkSize 0 [].

Definition default_chunkSize : nat := 2000.

(** [for (const chunk of chunks) embeddings.push(await this.generateEmbedding(chunk))]:
    one call after the other, the first exception leaves the loop. *)
Fixpoint embed_chunks (env : environment) (chunks : list Js.text)
    (embeddings : list (option (list float))) : M (list (option (list float))) :=
  match chunks with
  | [] => ret embeddings
  | chunk :: rest =>
      embedding <- generateEmbedding env chunk ;;
      embed_chunks env rest (embeddings ++ [embedding])
  end.

Section Averaging.
Context {num : Type} `{Arith num}.

(** [sum + emb[i]]: an index past the end reads undefined, and a number plus
    undefined is NaN. *)
Definition add_element (sum : num) (x : option num) : num :=
  match x with
  | Some v => add sum v
  | None => nan
  end.

(** [embeddings.reduce((sum, emb) => sum + emb[i], 0)]; reading [emb[i]] of an
    undefined [emb] throws. *)
Definition reduce_column (embeddings : list (option (list num))) (i : nat)
    : outcome num :=
  fold_left
    (fun acc emb =>
       match acc, emb with
       | Returned sum, Some v => Returned (add_element sum (nth_error v i))
       | Returned _, None => Thrown TypeError
       | stopped, _ => stopped
       end)
    embeddings (Returned zero).

(** [first.map((_, i) => reduce(i) / embeddings.length)], for the indices
    [i], [i + 1], ... of the elements [first] still has to visit. *)
Fixpoint map_columns (embeddings : list (option (list num))) (first : list num)
    (i : nat) : outcome (list num) :=
  match first with
  | [] => Returned []
  | _ :: first' =>
      match reduce_column embeddings i with
      | Returned sum =>
          match map_columns embeddings first' (S i) with
          | Returned avg => Returned (div sum (of_nat (length embeddings)) :: avg)
          | stopped => stopped
          end
      | Thrown e => Thrown e
      | Diverged => Diverged
      end
  end.

(** Lines 36 to 43 of [generateEmbeddingsForDocument]: null for no embedding
    at all, else [embeddings[0].map(...)], which throws when [embeddings[0]]
    is undefined. *)
Definition averageEmbeddings (embeddings : list (option (list num)))
    : outcome (option (list num)) :=
  match embeddings with
  | [] => Returned None
  | None :: _ => Thrown TypeError
  | Some first :: _ =>
      match map_columns embeddings first 0 with
      | Returned avg => Returned (Some avg)
      | Thrown e => Thrown e
      | Diverged => Diverged
      end
  end.

End Averaging.

(** [generateEmbeddingsForDocument(content)]; the result [None] is null. The
    chunk size is the default one, so [chunkText] returns its chunks and the
    first branch is never taken. *)
Definition generateEmbeddingsForDocument (env : environment) (content : text)
    : M (option (list float)) :=
  match chunkText content default_chunkSize with
  | None => lift Diverged
  | Some chunks =>
      embeddings <- embed_chunks env chunks [] ;;
      lift (averageEmbeddings embeddings)
  end.

End EmbeddingService.

(** ** SQL as the service uses it *)

Module Sql.

(** [ORDER BY]: a stable insertion sort by the comparison [le]. *)
Fixpoint insert_row {A} (le : A -> A -> bool) (r : A) (rows : list A) : list A :=
  match rows with
  | [] => [r]
  | x :: rows' => if le r x then r :: x :: rows' else x :: insert_row le r rows'
  end.

Definition order_by {A} (le : A -> A -> bool) (rows : list A) : list A :=
  fold_right (insert_row le) [] rows.

(** [LIMIT limit OFFSET offset] as SQLite reads them: a negative offset is no
    offset, a negative limit is no limit. *)
Definition limit_offset {A} (limit offset : Z) (rows : list A) : list A :=
  let rest := skipn (Z.to_nat offset) rows in
  if (limit <? 0)%Z then rest else firstn (Z.to_nat limit) rest.

(** A JavaScript number bound to [LIMIT ?] or [OFFSET ?]. The driver binds it
    as an INTEGER or as a REAL, and SQLite takes there only what converts to
    a 64-bit integer without loss; with anything else ([None]) the statement
    fails with a datatype mismatch. *)
Definition integer (x : float) : option Z :=
  match JsInteger.to_Z x with
  | Some z => if ((- 2 ^ 63 <? z) && (z <? 2 ^ 63))%Z then Some z else None
  | None => None
  end.

(** The value of a column computed as a double: SQLite stores NaN as NULL
    ([None]), which the driver hands to JavaScript as null. *)
Definition real (x : float) : option float :=
  if PrimFloat.is_nan x then None else Some x.

(** [ORDER BY column ASC] on such a column: NULL sorts before every number. *)
Definition real_le (a b : option float) : bool :=
  match a, b with
  | None, _ => true
  | Some _, None => false
  | Some x, Some y => PrimFloat.leb x y
  end.

(** [FROM documents d JOIN embeddings e ON d.id = e.doc_id] *)
Definition join (ds : list document_row) (es : list embedding_row)
    : list (document_row * embedding_row) :=
  flat_map
    (fun d => map (pair d) (filter (fun e => emb_doc_id e =? doc_id d) es))
    ds.

End Sql.

(** ** documentService.js *)

Module DocumentService.
Import Js.

(** What [saveDocument] resolves with: [{ id: docId, content }]. *)
Record saved := {
  saved_id : nat;
  saved_content : text
}.

(** A row of the search query and an element of the array [searchDocuments]
    resolves with. *)
Record search_row := {
  row_id : nat;
  row_filename : text;
  row_content_preview : text;
  row_upload_date : nat;
  row_distance : option float
}.

Record search_result := {
  res_id : nat;
  res_filename : text;
  res_preview : text;
  res_uploadDate : nat;
  res_similarity : float
}.

(** [content.substring(0, 500) + (content.length > 500 ? '...' : '')] *)
Definition contentPreview (content : text) : text :=
  substring content 0 500 ++ (if 500 <? length content then lit "..." else lit "").

(** The tables after [INSERT INTO documents (filename, content_preview,
    upload_date) VALUES (?, ?, datetime("now"))]. *)
Definition with_document (filename preview : text) (w : world) : world :=
  {| calls := calls w;
     documents := documents w ++
       [{| doc_id := S (documents_seq w); doc_filename := filename;
           doc_content_preview := preview; doc_upload_date := clock w |}];
     embeddings := embeddings w;
     documents_seq := S (documents_seq w);
     embeddings_seq := embeddings_seq w; clock := clock w |}.

(** The tables after [INSERT INTO embeddings (doc_id, vector) VALUES (?, ?)]. *)
Definition with_embedding (docId : nat) (vector : list float) (w : world) : world :=
  {| calls := calls w;
     documents := documents w;
     embeddings := embeddings w ++
       [{| emb_id := S (embeddings_seq w); emb_doc_id := docId;
           emb_vector := vector |}];
     documents_seq := documents_seq w;
     embeddings_seq := S (embeddings_seq w); clock := clock w |}.

(** The first [db.run]: its callback rejects on an error and otherwise goes on
    with [this.lastID]. *)
Definition insert_document (env : environment) (filename preview : text) : M nat :=
  fun w =>
    if db_error env w then (Thrown DbError, w)
    else (Returned (S (documents_seq w)), with_document filename preview w).

(** The second [db.run], with the vector as a Float32Array; its callback only
    logs an error. *)
Definition insert_embedding (env : environment) (docId : nat)
    (embedding : list float) : M unit :=
  fun w =>
    if db_error env w then (Returned tt, w)
    else (Returned tt, with_embedding docId (map fround embedding) w).

(** [saveDocument(filename, filePath)] *)
Definition saveDocument (env : environment) (filename filePath : text) : M saved :=
  match extractText env filePath with
  | None => throw ExtractionFailed
  | Some content =>
      let preview := contentPreview content in
      docId <- insert_document env filename preview ;;
      try_catch
        (embedding <- EmbeddingService.generateEmbeddingsForDocument env content ;;
         _ <- match embedding with
              | Some v => insert_embedding env docId v
              | None => ret tt
              end ;;
         ret {| saved_id := docId; saved_content := content |})
        (fun _ => ret {| saved_id := docId; saved_content := content |})
  end.

(** The rows of
    [SELECT d.id, d.filename, d.content_preview, d.upload_date,
            vec_distance_cosine(e.vector, ?) as distance
     FROM documents d JOIN embeddings e ON d.id = e.doc_id
     ORDER BY distance ASC], before LIMIT and OFFSET. *)
Definition joined_rows (env : environment) (w : world) (probe : list float)
    : list search_row :=
  map (fun de : document_row * embedding_row =>
         let (d, e) := de in
         {| row_id := doc_id d; row_filename := doc_filename d;
            row_content_preview := doc_content_preview d;
            row_upload_date := doc_upload_date d;
            row_distance := Sql.real (vec_distance_cosine env (emb_vector e) probe) |})
      (Sql.join (documents w) (embeddings w)).

Definition distance_le (r1 r2 : search_row) : bool :=
  Sql.real_le (row_distance r1) (row_distance r2).

Definition ranked_rows (env : environment) (w : world) (probe : list float)
    : list search_row :=
  Sql.order_by distance_le (joined_rows env w probe).

(** [db.all(sql, [queryBlob, limit, offset], callback)] with the query above
    followed by [LIMIT ? OFFSET ?]: an error of the database, or of the
    binding of [limit] and [offset], rejects. *)
Definition db_all_search (env : environment) (probe : list float)
    (limit offset : float) : M (list search_row) :=
  fun w =>
    if db_error env w then (Thrown DbError, w)
    else
      match Sql.integer limit, Sql.integer offset with
      | Some l, Some o =>
          (Returned (Sql.limit_offset l o (ranked_rows env w probe)), w)
      | _, _ => (Thrown DbError, w)
      end.

(** The number a column value is in arithmetic: null counts as 0. *)
Definition to_number (v : option float) : float :=
  match v with
  | Some x => x
  | None => 0%float
  end.

(** [{ id, filename, preview, uploadDate, similarity: 1 - row.distance }] *)
Definition to_result (row : search_row) : search_result :=
  {| res_id := row_id row; res_filename := row_filename row;
     res_preview := row_content_preview row;
     res_uploadDate := row_upload_date row;
     res_similarity := PrimFloat.sub 1 (to_number (row_distance row)) |}.

(** [new Float32Array(queryEmbedding)]: of undefined, the empty array. *)
Definition float32Array (v : option (list float)) : list float :=
  match v with
  | Some xs => map fround xs
  | None => []
  end.

(** [searchDocuments(query, limit, offset)] *)
Definition searchDocuments (env : environment) (query : text)
    (limit offset : float) : M (list search_result) :=
  queryEmbedding <- EmbeddingService.generateEmbedding env query ;;
  rows <- db_all_search env (float32Array queryEmbedding) limit offset ;;
  ret (map to_result rows).

End DocumentService.

(** ** routes/index.js *)

Module Routes.
Import Js.

(** An HTTP response: [res.json(body)] or [res.status(code).json({ error })]. *)
Inductive response (A : Type) :=
| Json (body : A)
| Status (code : nat) (error : text).
Arguments Json {A} body.
Arguments Status {A} code error.

Record process_json := {
  process_message : text;
  process_documentId : nat;
  process_preview : text
}.

Record search_json := {
  search_results : list DocumentService.search_result;
  search_page : float;
  search_limit : float
}.

Record document_json := {
  json_id : nat;
  json_filename : text;
  json_preview : text;
  json_uploadDate : nat
}.

Record documents_json := {
  list_documents : list document_json;
  list_page : Z;
  list_limit : Z
}.

(** The body of POST /search as parsed JSON; an absent field is [None]. The
    numbers are written as integers. *)
Record search_body := {
  body_query : option text;
  body_limit : option Z;
  body_page : option Z
}.

(** [path.join('./uploads', filename)] for a plain file name. *)
Definition upload_path (filename : text) : text := lit "uploads/" ++ filename.

(** POST /process with body [{ filename }]. *)
Definition process (env : environment) (filename : option text)
    : M (response process_json) :=
  match filename with
  | None | Some [] => ret (Status 400 (lit "filename is required"))
  | Some name =>
      let filePath := upload_path name in
      if negb (file_exists env filePath) then ret (Status 404 (lit "File not found"))
      else
        try_catch
          (result <- DocumentService.saveDocument env name filePath ;;
           ret (Json
             {| process_message := lit "Document processed and indexed successfully";
                process_documentId := DocumentService.saved_id result;
                process_preview :=
                  substring (DocumentService.saved_content result) 0 200 ++ lit "..." |}))
          (fun _ => ret (Status 500 (lit "Failed to process document")))
  end.

(** POST /search with body [{ query, limit = 10, page = 1 }]; [limit] and
    [page] are JavaScript numbers, and so is [(page - 1) * limit]. *)
Definition search (env : environment) (body : search_body)
    : M (response search_json) :=
  let limit :=
    JsInteger.of_Z (match body_limit body with Some l => l | None => 10%Z end) in
  let page :=
    JsInteger.of_Z (match body_page body with Some p => p | None => 1%Z end) in
  match body_query body with
  | None | Some [] => ret (Status 400 (lit "Query is required"))
  | Some query =>
      let offset := PrimFloat.mul (PrimFloat.sub page 1) limit in
      try_catch
        (results <- DocumentService.searchDocuments env query limit offset ;;
         ret (Json {| search_results := results; search_page := page;
                      search_limit := limit |}))
        (fun _ => ret (Status 500 (lit "Failed to perform search")))
  end.

(** [SELECT id, filename, content_preview, upload_date FROM documents
     ORDER BY upload_date DESC LIMIT ? OFFSET ?] *)
Definition db_all_documents (env : environment) (limit offset : Z)
    : M (list document_row) :=
  fun w =>
    if db_error env w then (Thrown DbError, w)
    else
      (Returned
         (Sql.limit_offset limit offset
            (Sql.order_by (fun d1 d2 => doc_upload_date d2 <=? doc_upload_date d1)
               (documents w))),
       w).

(** GET /documents with query parameters [limit = 50] and [page = 1], each
    written as a plain decimal integer, which [parseInt(limit)],
    [parseInt(page)] and the subtraction [page - 1] read as the same
    integer. *)
Definition listDocuments (env : environment) (limit page : option Z)
    : M (response documents_json) :=
  let limit := match limit with Some l => l | None => 50%Z end in
  let page := match page with Some p => p | None => 1%Z end in
  let offset := ((page - 1) * limit)%Z in
  try_catch
    (rows <- db_all_documents env limit offset ;;
     ret (Json
       {| list_documents :=
            map (fun doc =>
                   {| json_id := doc_id doc; json_filename := doc_filename doc;
                      json_preview := doc_content_preview doc;
                      json_uploadDate := doc_upload_date doc |})
                rows;
          list_page := page; list_limit := limit |}))
    (fun _ => ret (Status 500 (lit "Failed to list documents"))).

End Routes.

(** ** Reachable states

    The store changes only through the handlers; the clock moves forward
    between requests. *)

Definition tick (n : nat) (w : world) : world :=
  {| calls := calls w; documents := documents w; embeddings := embeddings w;
     documents_seq := documents_seq w; embeddings_seq := embeddings_seq w;
     clock := clock w + n |}.

Inductive step (env : environment) : world -> world -> Prop :=
| step_process filename w :
    step env w (snd (Routes.process env filename w))
| step_search body w :
    step env w (snd (Routes.search env body w))
| step_list limit page w :
    step env w (snd (Routes.listDocuments env limit page w))
| step_tick n w :
    step env w (tick n w).

Inductive reachable_from (env : environment) (w0 : world) : world -> Prop :=
| reach_refl : reachable_from env w0 w0
| reach_step w w' :
    reachable_from env w0 w -> step env w w' -> reachable_from env w0 w'.

Definition reachable (env : environment) : world -> Prop :=
  reachable_from env initial_world.

(** ** More of JavaScript's strings *)

Module JsText.
Import Js.

Fixpoint eqb (a b : text) : bool :=
  match a, b with
  | [], [] => true
  | x :: a', y :: b' => Ascii.eqb x y && eqb a' b'
  | _, _ => false
  end.

(** One character of [s.toLowerCase()], for the characters up to U+00FF:
    A-Z and the accented capitals U+00C0-U+00DE (the sign U+00D7 apart) move
    up by 32. *)
Definition lower_char (c : ascii) : ascii :=
  let n := nat_of_ascii c in
  if ((65 <=? n) && (n <=? 90))
     || ((192 <=? n) && (n <=? 222) && negb (n =? 215))
  then ascii_of_nat (n + 32)
  else c.

Definition toLowerCase (s : text) : text := map lower_char s.

Fixpoint starts_with (p s : text) : bool :=
  match p, s with
  | [], _ => true
  | x :: p', y :: s' => Ascii.eqb x y && starts_with p' s'
  | _ :: _, [] => false
  end.

(** [s.includes(p)], which is also [/p/.test(s)] for a pattern of plain
    letters. *)
Fixpoint includes (p s : text) : bool :=
  starts_with p s ||
  match s with
  | [] => false
  | _ :: s' => includes p s'
  end.

(** [s.split(sep)] for a separator of one character. *)
Fixpoint split (sep : ascii) (s : text) : list text :=
  match s with
  | [] => [[]]
  | c :: s' =>
      if Ascii.eqb c sep then [] :: split sep s'
      else
        match split sep s' with
        | seg :: segs => (c :: seg) :: segs
        | [] => [[c]]
        end
  end.

(** The decimal digits of a non-negative integer, as [String(n)] gives them. *)
Definition decimal (n : nat) : text :=
  list_ascii_of_string (DecimalString.NilZero.string_of_uint (Nat.to_uint n)).

End JsText.

(** ** textExtraction.js *)

Module TextExtraction.
Import Js.

(** The libraries the service extracts text with. Each call gives the text
    ([inl]) or throws an error with a message ([inr]). [readFile] gives, for
    the sheets of a workbook in the order of [SheetNames], what
    [xlsx.utils.sheet_to_csv] makes of each. *)
Record libraries := {
  extname : text -> text;
  readFileSync : text -> text + text;
  pdfParse : text -> text + text;
  extractRawText : text -> text + text;
  readFile : text -> list text + text
}.

Definition newline : text := ["010"%char].

Definition extractFromTxt (libs : libraries) (filePath : text) : text + text :=
  readFileSync libs filePath.

Definition extractFromPdf (libs : libraries) (filePath : text) : text + text :=
  pdfParse libs filePath.

Definition extractFromDocx (libs : libraries) (filePath : text) : text + text :=
  extractRawText libs filePath.

(** [workbook.SheetNames.forEach(name => { text += sheet_to_csv(...) + '\n' })] *)
Definition extractFromXlsx (libs : libraries) (filePath : text) : text + text :=
  match readFile libs filePath with
  | inl sheets => inl (fold_left (fun text csv => text ++ csv ++ newline) sheets [])
  | inr message => inr message
  end.

Definition extractFromCsv (libs : libraries) (filePath : text) : text + text :=
  readFileSync libs filePath.

(** [extractText(filePath)]: the [switch] on the lower-cased extension inside
    the [try], and the [catch] that rethrows every error as
    'Failed to extract text: ' followed by its message. *)
Definition extractText (libs : libraries) (filePath : text) : text + text :=
  let ext := JsText.toLowerCase (extname libs filePath) in
  let attempt :=
    if JsText.eqb ext (lit ".txt") then extractFromTxt libs filePath
    else if JsText.eqb ext (lit ".pdf") then extractFromPdf libs filePath
    else if JsText.eqb ext (lit ".docx") then extractFromDocx libs filePath
    else if JsText.eqb ext (lit ".xlsx") || JsText.eqb ext (lit ".xls")
      then extractFromXlsx libs filePath
    else if JsText.eqb ext (lit ".csv") then extractFromCsv libs filePath
    else inr (lit "Unsupported file type: " ++ ext) in
  match attempt with
  | inl text => inl text
  | inr message => inr (lit "Failed to extract text: " ++ message)
  end.

(** The service as [saveDocument] awaits it: the text, or an exception. *)
Definition service (libs : libraries) (filePath : text) : option text :=
  match extractText libs filePath with
  | inl text => Some text
  | inr _ => None
  end.

End TextExtraction.

(** ** server.js: what multer is configured with *)

Module Upload.
Import Js.

(** [/txt|pdf|docx|xlsx|csv/.test(s)] *)
Definition allowedTypes_test (s : text) : bool :=
  existsb (fun word => JsText.includes word s)
    [lit "txt"; lit "pdf"; lit "docx"; lit "xlsx"; lit "csv"].

(** The [fileFilter]: [true] when the callback accepts the file. [extname] is
    [path.extname]. *)
Definition fileFilter (extname : text -> text) (originalname mimetype : text)
    : bool :=
  let ext := JsText.toLowerCase (extname originalname) in
  let extname_ok := allowedTypes_test ext in
  let mimetype_ok :=
    JsText.eqb mimetype (lit "text/plain") || allowedTypes_test mimetype in
  extname_ok && (mimetype_ok || JsText.eqb ext (lit ".txt")).

(** The storage's [filename]: [Date.now() + '-' + file.originalname]. *)
Definition storage_filename (now : nat) (originalname : text) : text :=
  JsText.decimal now ++ lit "-" ++ originalname.

End Upload.

(** ** routes/index.js: POST /upload and POST /download *)

Module Transfer.
Import Js Routes.

Record file_json := {
  file_message : text;
  file_fileUrl : text;
  file_filename : text
}.

(** POST /upload, after multer: [file] is [req.file.filename], absent when no
    file came with the request. *)
Definition upload (file : option text) : response file_json :=
  match file with
  | None => Status 400 (lit "No file uploaded")
  | Some filename =>
      Json {| file_message := lit "File uploaded successfully";
              file_fileUrl := lit "/uploads/" ++ filename;
              file_filename := filename |}
  end.

(** [urlParts[urlParts.length - 1] || 'downloaded_file'] *)
Definition originalFilename (fileUrl : text) : text :=
  match last (JsText.split "/"%char fileUrl) [] with
  | [] => lit "downloaded_file"
  | name => name
  end.

(** POST /download with body [{ fileUrl }]. [fetched] tells whether the file
    could be downloaded and written; [now] is [Date.now()]. *)
Definition download (fetched : text -> bool) (now : nat) (fileUrl : option text)
    : response file_json :=
  match fileUrl with
  | None | Some [] => Status 400 (lit "fileUrl is required")
  | Some url =>
      if fetched url then
        let filename := JsText.decimal now ++ lit "-" ++ originalFilename url in
        Json {| file_message := lit "File downloaded and saved successfully";
                file_filename := filename;
                file_fileUrl := lit "/uploads/" ++ filename |}
      else Status 500 (lit "Failed to download file")
  end.

End Transfer.

(** ** Sample environments

    Concrete collaborators on which the service above can be run: a provider
    that answers its calls from a list, in call order; an upload folder given
    as a list of paths with the text extracted from each; a database that
    never fails; the cosine distance computed in binary64. *)

Module Sample.
Import Js.

Definition text_eqb (a b : text) : bool :=
  String.eqb (string_of_list_ascii a) (string_of_list_ascii b).

Definition provider_sequence (replies : list reply) : list text -> text -> reply :=
  fun calls _ => nth (length calls) replies Rejects.

Fixpoint lookup (files : list (text * text)) (path : text) : option text :=
  match files with
  | [] => None
  | (p, content) :: files' =>
      if text_eqb p path then Some content else lookup files' path
  end.

Definition dot (a b : list float) : float :=
  fold_left (fun s xy => PrimFloat.add s (PrimFloat.mul (fst xy) (snd xy)))
    (combine a b) 0%float.

Definition cosine_distance (a b : list float) : float :=
  PrimFloat.sub 1
    (PrimFloat.div (dot a b)
       (PrimFloat.mul (PrimFloat.sqrt (dot a a)) (PrimFloat.sqrt (dot b b)))).

Definition env (replies : list reply) (files : list (text * text)) : environment :=
  {| provider := provider_sequence replies;
     extractText := lookup files;
     file_exists := fun path => match lookup files path with
                                | Some _ => true
                                | None => false
                                end;
     db_error := fun _ => false;
     vec_distance_cosine := cosine_distance |}.

(** A text of [n] characters. *)
Definition filler (n : nat) : text := repeat "a"%char n.

(** POST /process for each of [names] in turn. *)
Definition ingest (env : environment) (names : list text) (w : world) : world :=
  fold_left (fun w name => snd (Routes.process env (Some name) w)) names w.

(** An upload folder with one short file; the provider answers the first
    twelve calls with the vectors [[i; 1]], [i = 1 .. 12], and the thirteenth
    with [[1; 0]]. *)
Definition shelf : environment :=
  env (map (fun i => Responds (Some [of_nat i; 1%float])) (seq 1 12)
         ++ [Responds (Some [1%float; 0%float])])
      [(lit "uploads/a.txt", lit "hello")].

(** The same folder with a provider that answers [[1; 0]] twice. *)
Definition twins : environment :=
  env [Responds (Some [1%float; 0%float]); Responds (Some [1%float; 0%float])]
      [(lit "uploads/a.txt", lit "hello")].

(** The same folder with a provider that answers the zero vector to the
    first call and [[1; 0]] to the second. *)
Definition blank : environment :=
  env [Responds (Some [0%float; 0%float]); Responds (Some [1%float; 0%float])]
      [(lit "uploads/a.txt", lit "hello")].

(** The store after the file was processed twelve times. *)
Definition twelve : world := ingest shelf (repeat (lit "a.txt") 12) initial_world.

End Sample.

(** ** Vocabulary of the properties *)

Section Vocabulary.
Import Js EmbeddingService DocumentService.

(** What a chunk list must satisfy to be the chunking of [rest] by [c]. *)
Definition chunks_of (c : nat) (rest : text) (chunks : list text) : Prop :=
  concat chunks = rest /\
  length chunks = (length rest + c - 1) / c /\
  forall k, k < length chunks ->
    length (nth k chunks []) <= c /\
    (S k < length chunks -> length (nth k chunks []) = c).

Section Columns.
Context {num : Type} `{Arith num}.

(** Position [i] of the vectors [vs] summed as the code does it: from the
    left, starting at [a], a missing element counting as undefined. *)
Definition column_fold (vs : list (list num)) (i : nat) (a : num) : num :=
  fold_left (fun sum v => add_element sum (nth_error v i)) vs a.

(** The sum of position [i] over the vectors [vs], accumulated from the left
    starting at [a]. *)
Definition column_sum (vs : list (list num)) (i : nat) (a : num) : num :=
  fold_left add (map (fun v => nth i v nan) vs) a.

End Columns.

(** Two worlds with the same tables, counters and clock (the provider's call
    log may differ). *)
Definition same_store (w w' : world) : Prop :=
  documents w' = documents w /\ embeddings w' = embeddings w /\
  documents_seq w' = documents_seq w /\ embeddings_seq w' = embeddings_seq w /\
  clock w' = clock w.

(** The document [id] has a row in [embeddings]. *)
Definition has_vector (w : world) (id : nat) : Prop :=
  exists e, In e (embeddings w) /\ emb_doc_id e = id.

(** The document [id] has a row in [documents]. *)
Definition catalogued (w : world) (id : nat) : Prop :=
  exists d, In d (documents w) /\ doc_id d = id.

(** No id in the tables is beyond the AUTOINCREMENT counter. *)
Definition ids_bounded (w : world) : Prop :=
  (forall d, In d (documents w) -> doc_id d <= documents_seq w) /\
  (forall e, In e (embeddings w) -> emb_doc_id e <= documents_seq w).

(** What one request can do to the tables: nothing, or one new document with
    the next id, with or without its vector. *)
Definition grows (w w' : world) : Prop :=
  (documents w' = documents w /\ embeddings w' = embeddings w /\
   documents_seq w' = documents_seq w) \/
  (exists d,
     documents w' = documents w ++ [d] /\ doc_id d = S (documents_seq w) /\
     documents_seq w' = S (documents_seq w) /\
     (embeddings w' = embeddings w \/
      exists e, embeddings w' = embeddings w ++ [e] /\
                emb_doc_id e = S (documents_seq w))).



End Vocabulary.

(** ** More samples and vocabulary *)

Module Fixtures.
Import Js.

(** A sample of [path.extname]: the last dot of the name and what follows. *)
Definition extname (name : text) : text :=
  match rev (JsText.split "."%char name) with
  | ext :: _ :: _ => "."%char :: ext
  | _ => []
  end.

(** A folder with a text file, a workbook of two sheets and a picture. *)
Definition office : TextExtraction.libraries :=
  {| TextExtraction.extname := extname;
     TextExtraction.readFileSync := fun path =>
       if JsText.eqb path (lit "uploads/notes.TXT") then inl (lit "hello")
       else inr (lit "ENOENT");
     TextExtraction.pdfParse := fun _ => inr (lit "Invalid PDF structure");
     TextExtraction.extractRawText := fun _ => inr (lit "not a docx");
     TextExtraction.readFile := fun path =>
       if JsText.eqb path (lit "uploads/book.xls") then inl [lit "a,b"; lit "c"]
       else inr (lit "ENOENT") |}.

(** The service over [office]: every file exists, the provider answers
    [[1; 0]] to every call, the database fails as [db_fails] says. *)
Definition desk (db_fails : world -> bool) : environment :=
  {| provider := fun _ _ => Responds (Some [1%float; 0%float]);
     extractText := TextExtraction.service office;
     file_exists := fun _ => true;
     db_error := db_fails;
     vec_distance_cosine := Sample.cosine_distance |}.

(** A database that fails as soon as the provider has been called. *)
Definition fails_after_call (w : world) : bool :=
  match calls w with
  | [] => false
  | _ :: _ => true
  end.

End Fixtures.

Section Vocabulary2.

(** The world after the texts [ts] were posted to the provider, in order. *)
Definition log_calls (ts : list Js.text) (w : world) : world :=
  fold_left (fun w t => log_call t w) ts w.

(** Document ids are distinct, no document has two vectors, and every vector
    belongs to a catalogued document. *)
Definition store_consistent (w : world) : Prop :=
  NoDup (map doc_id (documents w)) /\
  NoDup (map emb_doc_id (embeddings w)) /\
  forall e, In e (embeddings w) -> catalogued w (emb_doc_id e).

End Vocabulary2.

(** * Properties *)

(** ** Chunking *)

Section ChunkText.
Import Js EmbeddingService.

Lemma slice_length (s : text) (b e : nat) :
  length (slice s b e) = Nat.min (e - b) (length s - b).
Proof. unfold slice. now rewrite length_firstn, length_skipn. Qed.

Lemma slice_step (s : text) (i c : nat) :
  slice s i (i + c) ++ skipn (i + c) s = skipn i s.
Proof.
  unfold slice.
  replace (i + c - i) with c by lia.
  replace (i + c) with (c + i) by lia.
  rewrite <- skipn_skipn.
  apply firstn_skipn.
Qed.

Lemma ceil_step (n c : nat) :
  0 < c -> 0 < n -> (n + c - 1) / c = S ((n - c + c - 1) / c).
Proof.
  intros Hc Hn.
  replace (n + c - 1) with ((n - 1) + 1 * c) by lia.
  rewrite Nat.div_add by lia.
  destruct (Nat.le_gt_cases c n) as [Hge | Hlt].
  - replace (n - c + c - 1) with (n - 1) by lia. lia.
  - replace (n - c + c - 1) with (c - 1) by lia.
    rewrite (Nat.div_small (n - 1)), (Nat.div_small (c - 1)) by lia. lia.
Qed.

Lemma chunks_of_nil (c : nat) : 0 < c -> chunks_of c [] [].
Proof.
  intros Hc. unfold chunks_of. split; [reflexivity |].
  split.
  - change (length (@nil text)) with 0. change (length (@nil ascii)) with 0.
    symmetry. apply Nat.div_small. lia.
  - intros k Hk. inversion Hk.
Qed.

Lemma chunkText_loop_exit (fuel : nat) (t : text) (c i : nat) (acc : list text) :
  length t <= i -> chunkText_loop fuel t c i acc = Some acc.
Proof.
  intros Hi. apply Nat.ltb_ge in Hi.
  destruct fuel; unfold chunkText_loop; fold chunkText_loop; now rewrite Hi.
Qed.

Lemma chunkText_loop_iter (fuel : nat) (t : text) (c i : nat) (acc : list text) :
  i < length t ->
  chunkText_loop (S fuel) t c i acc =
  chunkText_loop fuel t c (i + c) (acc ++ [slice t i (i + c)]).
Proof.
  intros Hi. apply Nat.ltb_lt in Hi.
  unfold chunkText_loop; fold chunkText_loop. now rewrite Hi.
Qed.

Lemma chunkText_loop_spec (t : text) (c : nat) :
  0 < c ->
  forall fuel i acc,
    length t - i <= fuel ->
    exists chunks,
      chunkText_loop fuel t c i acc = Some (acc ++ chunks) /\
      chunks_of c (skipn i t) chunks.
Proof.
  intros Hc fuel.
  assert (Hexit : forall fuel i acc, length t <= i ->
            exists chunks,
              chunkText_loop fuel t c i acc = Some (acc ++ chunks) /\
              chunks_of c (skipn i t) chunks).
  { intros f i acc Hi. exists [].
    rewrite app_nil_r, skipn_all2 by exact Hi.
    split; [now apply chunkText_loop_exit | apply chunks_of_nil, Hc]. }
  induction fuel as [| fuel IH]; intros i acc Hfuel.
  - apply Hexit. lia.
  - destruct (Nat.le_gt_cases (length t) i) as [Hi | Hi]; [now apply Hexit |].
    rewrite chunkText_loop_iter by exact Hi.
    destruct (IH (i + c) (acc ++ [slice t i (i + c)])) as (cs & Hrun & Hcat & Hlen & Hsz);
      [lia |].
    rewrite length_skipn in Hlen.
    exists (slice t i (i + c) :: cs).
    split; [rewrite Hrun, <- app_assoc; reflexivity |].
    split; [cbn; rewrite Hcat; apply slice_step |].
    split.
    + cbn [length]. rewrite length_skipn, Hlen.
      rewrite (ceil_step (length t - i) c) by lia.
      now replace (length t - i - c) with (length t - (i + c)) by lia.
    + intros [| k] Hk; cbn [length nth] in *.
      * rewrite slice_length. split; [lia |].
        intros Hmore.
        destruct (Nat.le_gt_cases (length t) (i + c)) as [Hend | Hin]; [| lia].
        replace (length t - (i + c)) with 0 in Hlen by lia.
        rewrite Nat.div_small in Hlen by lia. lia.
      * destruct (Hsz k) as [Hle Heq]; [lia |].
        split; [exact Hle |]. intros Hmore. apply Heq. lia.
Qed.

(** C1. For every text [t] and chunk size [c > 0], [chunkText] returns
    [ceil(length t / c)] chunks, written [(length t + c - 1) / c]; every chunk
    has at most [c] characters and every chunk but the last exactly [c];
    the chunks concatenated in order are [t]. The default size is 2000. *)
Theorem chunkText_partition (t : text) (c : nat) :
  0 < c ->
  default_chunkSize = 2000 /\
  exists chunks,
    chunkText t c = Some chunks /\
    length chunks = (length t + c - 1) / c /\
    (forall k, k < length chunks ->
       length (nth k chunks []) <= c /\
       (S k < length chunks -> length (nth k chunks []) = c)) /\
    concat chunks = t.
Proof.
  intros Hc. split; [reflexivity |].
  destruct (chunkText_loop_spec t c Hc (length t) 0 []) as (cs & Hrun & Hcat & Hlen & Hsz);
    [lia |].
  exists cs. cbn in Hcat, Hlen.
  unfold chunkText. rewrite Hrun. auto.
Qed.

Lemma chunkText_partition_witness :
  exists chunks,
    chunkText (lit "abcdefg") 3 = Some chunks /\
    length chunks = 3 /\ concat chunks = lit "abcdefg".
Proof.
  destruct (chunkText_partition (lit "abcdefg") 3) as (_ & cs & Hrun & Hlen & _ & Hcat);
    [lia |].
  exists cs. repeat split; assumption.
Defined.

End ChunkText.

(** ** Averaging the chunk vectors *)

Section MeanPooling.
Import EmbeddingService.
Context {num : Type} `{Arith num}.

Lemma reduce_column_from (vs : list (list num)) (i : nat) :
  forall a,
    fold_left
      (fun acc emb =>
         match acc, emb with
         | Returned sum, Some v => Returned (add_element sum (nth_error v i))
         | Returned _, None => Thrown TypeError
         | stopped, _ => stopped
         end)
      (map Some vs) (Returned a)
    = Returned (column_fold vs i a).
Proof.
  unfold column_fold.
  induction vs as [| v vs IH]; intros a; [reflexivity |].
  cbn [map fold_left]. apply IH.
Qed.

Lemma map_columns_arrays (vs : list (list num)) :
  forall first i,
    map_columns (map Some vs) first i =
    Returned (map (fun j => div (column_fold vs j zero) (of_nat (length vs)))
                  (seq i (length first))).
Proof.
  intros first.
  induction first as [| x first IH]; intros i; [reflexivity |].
  cbn [map_columns length seq map].
  unfold reduce_column. rewrite reduce_column_from, IH.
  now rewrite length_map.
Qed.

(** Arrays only: the result is an array as long as the first one. *)
Lemma averageEmbeddings_arrays (first : list num) (rest : list (list num)) :
  averageEmbeddings (map Some (first :: rest)) =
  Returned (Some (map (fun j => div (column_fold (first :: rest) j zero)
                                    (of_nat (length (first :: rest))))
                      (seq 0 (length first)))).
Proof.
  change (map Some (first :: rest)) with (Some first :: map Some rest).
  cbn [averageEmbeddings].
  change (Some first :: map Some rest) with (map Some (first :: rest)).
  now rewrite map_columns_arrays.
Qed.

Lemma column_fold_sum (vs : list (list num)) (i : nat) :
  (forall v, In v vs -> i < length v) ->
  forall a, column_fold vs i a = column_sum vs i a.
Proof.
  unfold column_fold, column_sum.
  induction vs as [| v vs IH]; intros Hlen a; [reflexivity |].
  cbn [map fold_left].
  assert (Hv : i < length v) by (apply Hlen; now left).
  rewrite (nth_error_nth' v nan Hv). cbn [add_element].
  apply IH. intros v' Hin. apply Hlen. now right.
Qed.

Lemma averageEmbeddings_vectors (vs : list (list num)) (d : nat) :
  vs <> [] ->
  (forall v, In v vs -> length v = d) ->
  averageEmbeddings (map Some vs) =
  Returned (Some (map (fun j => div (column_sum vs j zero) (of_nat (length vs)))
                      (seq 0 d))).
Proof.
  intros Hne Hd.
  destruct vs as [| v vs]; [congruence |].
  rewrite averageEmbeddings_arrays.
  rewrite (Hd v) by now left.
  do 2 f_equal. apply map_ext_in. intros j Hj. apply in_seq in Hj.
  rewrite column_fold_sum; [reflexivity |].
  intros v' Hin. rewrite (Hd v' Hin). lia.
Qed.

Lemma fold_left_add_perm :
  (forall a b c : num, add (add a b) c = add a (add b c)) ->
  (forall a b : num, add a b = add b a) ->
  forall l l', Permutation l l' ->
  forall a, fold_left add l a = fold_left add l' a.
Proof.
  intros Hassoc Hcomm l l' Hperm.
  induction Hperm as [| x l l' _ IH | x y l | l l' l'' _ IH1 _ IH2]; intros a; cbn.
  - reflexivity.
  - apply IH.
  - f_equal. rewrite !Hassoc. f_equal. apply Hcomm.
  - now rewrite IH1.
Qed.

(** C2, as the code has it. For a non-empty list [vs] of vectors of one length
    [d], the combined vector has length [d] and at position [i] the sum of
    position [i] over [vs], accumulated from 0 in list order, divided by the
    number of vectors, all in the arithmetic of [num]. Where addition is
    associative and commutative (exact arithmetic), every permutation of [vs]
    gives the same combined vector. *)
Theorem mean_pooling_exact (vs : list (list num)) (d : nat) :
  vs <> [] ->
  (forall v, In v vs -> length v = d) ->
  exists avg,
    averageEmbeddings (map Some vs) = Returned (Some avg) /\
    length avg = d /\
    (forall i, i < d ->
       nth_error avg i =
       Some (div (fold_left add (map (fun v => nth i v nan) vs) zero)
                 (of_nat (length vs)))) /\
    ((forall a b c : num, add (add a b) c = add a (add b c)) ->
     (forall a b : num, add a b = add b a) ->
     forall vs', Permutation vs vs' ->
       averageEmbeddings (map Some vs') = Returned (Some avg)).
Proof.
  intros Hne Hd.
  eexists. split; [apply (averageEmbeddings_vectors vs d Hne Hd) |].
  split; [now rewrite length_map, length_seq |].
  split.
  - intros i Hi.
    rewrite nth_error_map, nth_error_seq.
    apply Nat.ltb_lt in Hi. now rewrite Hi.
  - intros Hassoc Hcomm vs' Hperm.
    rewrite (averageEmbeddings_vectors vs' d).
    + do 2 f_equal. apply map_ext. intros j.
      unfold column_sum.
      rewrite (fold_left_add_perm Hassoc Hcomm _ _
                 (Permutation_map (fun v => nth j v nan) Hperm)).
      now rewrite (Permutation_length Hperm).
    + intros ->. apply Permutation_sym, Permutation_nil in Hperm. congruence.
    + intros v Hin. apply Hd. now apply (Permutation_in _ (Permutation_sym Hperm)).
Qed.

End MeanPooling.

(** Addition of [ExactNumber] is associative and commutative. *)
Lemma exact_add_assoc (a b c : exact) :
  add (add a b) c = add a (add b c).
Proof.
  destruct a as [[n1 d1] |], b as [[n2 d2] |], c as [[n3 d3] |]; cbn; try reflexivity.
  unfold Qplus; cbn. f_equal. f_equal.
  - rewrite !Pos2Z.inj_mul. ring.
  - symmetry. apply Pos.mul_assoc.
Qed.

Lemma exact_add_comm (a b : exact) : add a b = add b a.
Proof.
  destruct a as [[n1 d1] |], b as [[n2 d2] |]; cbn; try reflexivity.
  unfold Qplus; cbn. f_equal. f_equal.
  - ring.
  - apply Pos.mul_comm.
Qed.

Lemma mean_pooling_exact_witness :
  let q (n : Z) : exact := Some (inject_Z n) in
  let vs := [[q 1; q 2]; [q 3; q 6]; [q 5; q 1]]%Z in
  exists avg,
    EmbeddingService.averageEmbeddings (map Some vs) = Returned (Some avg) /\
    EmbeddingService.averageEmbeddings (map Some (rev vs)) = Returned (Some avg) /\
    nth_error avg 0 = Some (Some (9 # 3)%Q).
Proof.
  intros q vs.
  destruct (mean_pooling_exact vs 2) as (avg & Hrun & _ & Hmean & Hperm).
  - discriminate.
  - intros v [<- | [<- | [<- | []]]]; reflexivity.
  - exists avg. split; [exact Hrun |]. split.
    + apply Hperm; [exact exact_add_assoc | exact exact_add_comm |].
      apply Permutation_rev.
    + rewrite (Hmean 0) by lia. reflexivity.
Defined.

(** C2 as stated fails on JavaScript numbers: a document of three chunks whose
    vectors are [0.1], [0.2], [0.3] gets the vector [0.20000000000000004], the
    same chunk vectors in the opposite order give [0.19999999999999998]. *)
Lemma mean_pooling_order_counterexample :
  let doc := Sample.filler 4001 in
  let answers := [Responds (Some [0.1%float]); Responds (Some [0.2%float]);
                  Responds (Some [0.3%float])] in
  fst (EmbeddingService.generateEmbeddingsForDocument
         (Sample.env answers []) doc initial_world)
    = Returned (Some [0.20000000000000004%float]) /\
  fst (EmbeddingService.generateEmbeddingsForDocument
         (Sample.env (rev answers) []) doc initial_world)
    = Returned (Some [0.19999999999999998%float]) /\
  PrimFloat.eqb 0.20000000000000004 0.19999999999999998 = false.
Proof. vm_compute. repeat split. Qed.

(** ** Order of JavaScript numbers *)

Lemma SFcompare_antisym (x y : spec_float) (c : comparison) :
  SFcompare x y = Some c -> SFcompare y x = Some (CompOpp c).
Proof.
  destruct x as [sx | sx | | sx mx ex], y as [sy | sy | | sy my ey]; cbn;
    try discriminate;
    try (destruct sx; intros [= <-]; reflexivity);
    try (destruct sy; intros [= <-]; reflexivity);
    try (destruct sx, sy; intros [= <-]; reflexivity).
  intros [= <-]. f_equal.
  rewrite (Z.compare_antisym ex ey).
  change (PosDef.Pos.compare_cont Eq my mx) with (Pos.compare_cont (CompOpp Eq) my mx).
  rewrite <- (Pos.compare_cont_antisym mx my Eq).
  destruct sx, sy; try reflexivity;
    destruct (ex ?= ey)%Z; cbn; try reflexivity;
    destruct (Pos.compare_cont Eq mx my); reflexivity.
Qed.

Lemma SFcompare_defined (x y : spec_float) :
  x <> S754_nan -> y <> S754_nan -> exists c, SFcompare x y = Some c.
Proof. destruct x, y; cbn; try congruence; eauto. Qed.

Lemma is_nan_spec (x : float) :
  PrimFloat.is_nan x = false -> Prim2SF x <> S754_nan.
Proof.
  unfold PrimFloat.is_nan. rewrite FloatAxioms.eqb_spec.
  intros Hx E. rewrite E in Hx. discriminate.
Qed.

Lemma leb_total (x y : float) :
  PrimFloat.is_nan x = false -> PrimFloat.is_nan y = false ->
  PrimFloat.leb x y = false -> PrimFloat.leb y x = true.
Proof.
  intros Hx Hy. rewrite !FloatAxioms.leb_spec. unfold SFleb.
  destruct (SFcompare_defined _ _ (is_nan_spec x Hx) (is_nan_spec y Hy)) as [c Hc].
  rewrite Hc, (SFcompare_antisym _ _ _ Hc).
  destruct c; cbn; congruence.
Qed.

Lemma SFleb_trans (x y z : spec_float) :
  SFleb x y = true -> SFleb y z = true -> SFleb x z = true.
Proof.
  unfold SFleb.
  destruct x as [sx | sx | | sx mx ex], y as [sy | sy | | sy my ey],
           z as [sz | sz | | sz mz ez]; cbn; try discriminate; try reflexivity;
    try (destruct sx; try discriminate; try reflexivity);
    try (destruct sy; try discriminate; try reflexivity);
    try (destruct sz; try discriminate; try reflexivity).
  all: change (PosDef.Pos.compare_cont Eq) with Pos.compare.
  all: destruct (Z.compare_spec ex ey), (Z.compare_spec ey ez), (Z.compare_spec ex ez);
         try discriminate; try reflexivity; try lia; subst.
  all: destruct (Pos.compare_spec mx my), (Pos.compare_spec my mz), (Pos.compare_spec mx mz);
         cbn; try discriminate; try reflexivity; try lia.
Qed.

Lemma leb_trans (x y z : float) :
  PrimFloat.leb x y = true -> PrimFloat.leb y z = true -> PrimFloat.leb x z = true.
Proof. rewrite !FloatAxioms.leb_spec. apply SFleb_trans. Qed.

(** ** ORDER BY, LIMIT and OFFSET *)

Section OrderBy.
Context {A : Type} (le : A -> A -> bool) (ok : A -> Prop).
Hypothesis le_total : forall a b, ok a -> ok b -> le a b = false -> le b a = true.
Hypothesis le_trans : forall a b c, le a b = true -> le b c = true -> le a c = true.

Lemma insert_row_perm (r : A) (rows : list A) :
  Permutation (Sql.insert_row le r rows) (r :: rows).
Proof.
  induction rows as [| x rows IH]; cbn; [reflexivity |].
  destruct (le r x); [reflexivity |].
  rewrite IH. apply perm_swap.
Qed.

Lemma order_by_perm (rows : list A) : Permutation (Sql.order_by le rows) rows.
Proof.
  induction rows as [| r rows IH]; cbn; [reflexivity |].
  rewrite insert_row_perm. now apply perm_skip.
Qed.

Lemma insert_row_sorted (r : A) (rows : list A) :
  ok r -> Forall ok rows ->
  StronglySorted (fun a b => le a b = true) rows ->
  StronglySorted (fun a b => le a b = true) (Sql.insert_row le r rows).
Proof.
  intros Hr Hok Hs.
  induction Hs as [| x rows Hs IH Hx]; cbn.
  - constructor; constructor.
  - inversion Hok as [| ? ? Hokx Hokr]; subst.
    destruct (le r x) eqn:Hrx.
    + constructor; [now constructor |].
      constructor; [exact Hrx |].
      eapply Forall_impl; [| exact Hx].
      intros a Hxa. now apply (le_trans r x a).
    + constructor; [now apply IH |].
      apply (Permutation_Forall (Permutation_sym (insert_row_perm r rows))).
      constructor; [| exact Hx].
      now apply le_total.
Qed.

Lemma order_by_sorted (rows : list A) :
  Forall ok rows ->
  StronglySorted (fun a b => le a b = true) (Sql.order_by le rows).
Proof.
  induction 1 as [| r rows Hr Hok IH]; cbn; [constructor |].
  apply insert_row_sorted; [exact Hr | | exact IH].
  now apply (Permutation_Forall (Permutation_sym (order_by_perm rows))).
Qed.

End OrderBy.

Lemma limit_offset_page {A} (limit page : Z) (rows : list A) :
  (0 < limit)%Z -> (0 < page)%Z ->
  Sql.limit_offset limit ((page - 1) * limit) rows =
  firstn (Z.to_nat limit) (skipn ((Z.to_nat page - 1) * Z.to_nat limit) rows).
Proof.
  intros Hl Hp. unfold Sql.limit_offset.
  destruct (limit <? 0)%Z eqn:Hneg; [apply Z.ltb_lt in Hneg; lia |].
  do 2 f_equal. rewrite Z2Nat.inj_mul, Z2Nat.inj_sub by lia. reflexivity.
Qed.

(** ** Integers as JavaScript numbers

    Integers below 2^53 in absolute value are numbers, and subtracting 1 and
    multiplying are exact on them as long as the result stays below 2^53. *)

Ltac stdlib_Z :=
  change IntDef.Z.add with Z.add in *;
  change IntDef.Z.sub with Z.sub in *;
  change IntDef.Z.max with Z.max in *;
  change IntDef.Z.min with Z.min in *;
  change IntDef.Z.leb with Z.leb in *;
  change IntDef.Z.eqb with Z.eqb in *;
  change IntDef.Z.div_eucl with Z.div_eucl in *;
  change IntDef.Z.shiftl with Z.shiftl in *.

(** Rounding an exact mantissa that is already canonical changes nothing. *)
Lemma round_canonical (sx : bool) (mx : positive) (ex : Z) :
  SpecFloat.bounded prec emax mx ex = true ->
  binary_round_aux prec emax sx (Z.pos mx) ex loc_Exact = S754_finite sx mx ex.
Proof.
  unfold SpecFloat.bounded, canonical_mantissa.
  intros Hb. apply andb_prop in Hb as [Hc He].
  apply Z.eqb_eq in Hc.
  unfold binary_round_aux, shr_fexp. cbn [Zdigits2 shr_record_of_loc].
  stdlib_Z.
  rewrite Hc, Z.sub_diag.
  cbn [shr shr_m loc_of_shr_record round_nearest_even Zdigits2 shr_record_of_loc].
  rewrite Hc, Z.sub_diag. cbn [shr shr_m].
  now rewrite He.
Qed.

Lemma iter_pos_nat {A} (f : A -> A) (p : positive) (x : A) :
  SpecFloat.iter_pos f p x = Nat.iter (Pos.to_nat p) f x.
Proof.
  revert x. induction p as [p IH | p IH |]; intros x; cbn [SpecFloat.iter_pos].
  - rewrite !IH, Pos2Nat.inj_xI.
    replace (S (2 * Pos.to_nat p)) with (Pos.to_nat p + (Pos.to_nat p + 1)) by lia.
    rewrite !Nat.iter_add. reflexivity.
  - rewrite !IH, Pos2Nat.inj_xO.
    replace (2 * Pos.to_nat p) with (Pos.to_nat p + Pos.to_nat p) by lia.
    now rewrite Nat.iter_add.
  - reflexivity.
Qed.

Lemma pos_iter_nat {A} (f : A -> A) (p : positive) (x : A) :
  Pos.iter f x p = Nat.iter (Pos.to_nat p) f x.
Proof. apply Pos2Nat.inj_iter. Qed.

Lemma shl_value (n : nat) (K : positive) :
  Z.pos (Nat.iter n xO K) = (Z.pos K * 2 ^ Z.of_nat n)%Z.
Proof.
  induction n as [| n IH]; [cbn; lia |].
  rewrite Nat2Z.inj_succ, Z.pow_succ_r by lia.
  cbn [Nat.iter nat_rect]. change (Nat.iter n xO K) with (nat_rect (fun _ => positive) K (fun _ => xO) n) in IH.
  rewrite Pos2Z.inj_xO, IH. lia.
Qed.

Lemma shl_digits (n : nat) (K : positive) :
  Z.pos (digits2_pos (Nat.iter n xO K)) = (Z.pos (digits2_pos K) + Z.of_nat n)%Z.
Proof.
  induction n as [| n IH]; [cbn; lia |].
  rewrite Nat2Z.inj_succ. unfold Nat.iter in *. cbn [nat_rect digits2_pos].
  rewrite Pos2Z.inj_succ, IH. lia.
Qed.

Lemma shr_exact (n : nat) (K : positive) :
  Nat.iter n shr_1 {| shr_m := Z.pos (Nat.iter n xO K); shr_r := false; shr_s := false |}
  = {| shr_m := Z.pos K; shr_r := false; shr_s := false |}.
Proof.
  induction n as [| n IH]; [reflexivity |].
  rewrite Nat.iter_succ_r. unfold Nat.iter at 2. cbn [nat_rect shr_1 orb].
  exact IH.
Qed.

(** Rounding an exact mantissa with [n] more binary digits than the
    canonical one, [n] exponents lower. *)
Lemma round_exact (sx : bool) (K : positive) (ex : Z) (n : nat) :
  SpecFloat.bounded prec emax K ex = true ->
  binary_round_aux prec emax sx (Z.pos K * 2 ^ Z.of_nat n) (ex - Z.of_nat n) loc_Exact
  = S754_finite sx K ex.
Proof.
  intros Hb. destruct n as [| n].
  - cbn [Z.of_nat]. rewrite Z.pow_0_r, Z.mul_1_r, Z.sub_0_r. now apply round_canonical.
  - rewrite <- shl_value.
    generalize Hb. unfold SpecFloat.bounded, canonical_mantissa.
    intros Hb'. apply andb_prop in Hb' as [Hc He]. apply Z.eqb_eq in Hc.
    unfold binary_round_aux, shr_fexp. cbn [Zdigits2 shr_record_of_loc].
    stdlib_Z. rewrite shl_digits.
    replace (Z.pos (digits2_pos K) + Z.of_nat (S n) + (ex - Z.of_nat (S n)))%Z
      with (Z.pos (digits2_pos K) + ex)%Z by lia.
    rewrite Hc.
    replace (ex - (ex - Z.of_nat (S n)))%Z with (Z.pos (Pos.of_succ_nat n)) by lia.
    cbn [shr]. rewrite iter_pos_nat, SuccNat2Pos.id_succ, shr_exact.
    cbn [shr_m loc_of_shr_record round_nearest_even Zdigits2 shr_record_of_loc].
    stdlib_Z.
    replace (ex - Z.of_nat (S n) + Z.pos (Pos.of_succ_nat n))%Z with ex by lia.
    rewrite Hc, Z.sub_diag. cbn [shr shr_m].
    now rewrite He.
Qed.

Section Integers.
Import JsInteger.
Open Scope Z_scope.

(** The number of binary digits of a positive integer. *)
Lemma digits_bounds (m : positive) :
  2 ^ (Z.pos (digits2_pos m) - 1) <= Z.pos m < 2 ^ Z.pos (digits2_pos m).
Proof.
  induction m as [m IH | m IH |]; cbn [digits2_pos]; [| | cbn; lia].
  all: rewrite Pos2Z.inj_succ; set (d := Z.pos (digits2_pos m)) in *.
  all: assert (Hd : 2 ^ d = 2 * 2 ^ (d - 1))
         by (rewrite <- Z.pow_succ_r by lia; f_equal; lia).
  all: replace (Z.succ d - 1) with d by lia; rewrite Z.pow_succ_r by lia; lia.
Qed.

Lemma digits_mono (a b : positive) :
  Z.pos a <= Z.pos b -> Z.pos (digits2_pos a) <= Z.pos (digits2_pos b).
Proof.
  intros Hab.
  pose proof (digits_bounds a) as [Ha _]. pose proof (digits_bounds b) as [_ Hb].
  assert (H : 2 ^ (Z.pos (digits2_pos a) - 1) < 2 ^ Z.pos (digits2_pos b)) by lia.
  apply Z.pow_lt_mono_r_iff in H; lia.
Qed.

Lemma digits_small (m : positive) :
  Z.pos m < 2 ^ 53 -> Z.pos (digits2_pos m) <= 53.
Proof.
  intros Hm. pose proof (digits_bounds m) as [Ha _].
  assert (H : 2 ^ (Z.pos (digits2_pos m) - 1) < 2 ^ 53) by lia.
  apply Z.pow_lt_mono_r_iff in H; lia.
Qed.

Lemma shl_align_value (m : positive) (ex ex' : Z) :
  ex' <= ex ->
  Z.pos (fst (shl_align m ex ex')) = Z.pos m * 2 ^ (ex - ex') /\
  snd (shl_align m ex ex') = ex' /\
  Z.pos (digits2_pos (fst (shl_align m ex ex'))) = Z.pos (digits2_pos m) + (ex - ex').
Proof.
  intros Hle. unfold shl_align.
  destruct (ex' - ex) as [| d | d] eqn:E; try lia.
  - replace (ex - ex') with 0 by lia. cbn [fst snd]. rewrite Z.pow_0_r. lia.
  - cbn [fst snd]. change (PosDef.Pos.iter xO m d) with (Pos.iter xO m d).
    rewrite pos_iter_nat, shl_value, shl_digits, positive_nat_Z.
    replace (ex - ex') with (Z.pos d) by lia. lia.
Qed.

(** The canonical form of a positive integer below 2^53. *)
Lemma round_integer (s : bool) (m : positive) :
  Z.pos m < 2 ^ 53 ->
  exists M e,
    binary_round prec emax s m 0 = S754_finite s M e /\
    SpecFloat.bounded prec emax M e = true /\
    e = Z.pos (digits2_pos m) - 53 /\
    Z.pos M = Z.pos m * 2 ^ (- e).
Proof.
  intros Hm. pose proof (digits_small m Hm) as Hd.
  unfold binary_round.
  set (e := fexp prec emax (Z.pos (digits2_pos m) + 0)).
  assert (He : e = Z.pos (digits2_pos m) - 53).
  { unfold e, fexp, emin, prec, emax. stdlib_Z. lia. }
  destruct (shl_align_value m 0 e) as (Hv & Hs & Hdig); [lia |].
  destruct (shl_align m 0 e) as [M e'] eqn:E. cbn [fst snd] in Hv, Hs, Hdig. subst e'.
  assert (Hb : SpecFloat.bounded prec emax M e = true).
  { unfold SpecFloat.bounded, canonical_mantissa, fexp, emin, prec, emax. stdlib_Z.
    apply andb_true_intro. split; [apply Z.eqb_eq | apply Z.leb_le]; lia. }
  exists M, e. split; [now apply round_canonical |].
  split; [exact Hb |]. split; [exact He |].
  rewrite Hv. reflexivity.
Qed.

Lemma normalize_valid (z : Z) :
  Z.abs z < 2 ^ 53 -> valid_binary (binary_normalize prec emax z 0 false) = true.
Proof.
  intros Hz. destruct z as [| m | m]; [reflexivity | |]; cbn [binary_normalize].
  - destruct (round_integer false m) as (M' & e' & -> & Hb & _); [cbn in Hz; lia | exact Hb].
  - destruct (round_integer true m) as (M' & e' & -> & Hb & _); [cbn in Hz; lia | exact Hb].
Qed.

Lemma of_Z_spec (z : Z) :
  Z.abs z < 2 ^ 53 -> Prim2SF (of_Z z) = binary_normalize prec emax z 0 false.
Proof. intros Hz. apply Prim2SF_SF2Prim, normalize_valid, Hz. Qed.

(** The same integer given with 52 binary digits after the point. *)
Lemma normalize_fixed_point (z : Z) :
  Z.abs z < 2 ^ 53 ->
  binary_normalize prec emax (z * 2 ^ 52) (-52) false
  = binary_normalize prec emax z 0 false.
Proof.
  intros Hz.
  assert (H : forall s m, Z.pos m < 2 ^ 53 ->
            binary_round prec emax s (m * 4503599627370496) (-52)
            = binary_round prec emax s m 0).
  { intros s m Hm.
    destruct (round_integer s m Hm) as (M & e & -> & Hb & He & HM).
    pose proof (digits_bounds m) as [Hd _].
    assert (Hpos : 1 <= Z.pos (digits2_pos m)) by lia.
    pose proof (digits_small m Hm) as Hsmall.
    unfold binary_round.
    assert (Hdig : Z.pos (digits2_pos (m * 4503599627370496)) = Z.pos (digits2_pos m) + 52).
    { replace (m * 4503599627370496)%positive with (Nat.iter 52 xO m).
      - rewrite shl_digits. reflexivity.
      - rewrite Pos.mul_comm. reflexivity. }
    rewrite Hdig.
    replace (fexp prec emax (Z.pos (digits2_pos m) + 52 + -52)) with e
      by (unfold fexp, emin, prec, emax; stdlib_Z; lia).
    assert (Hsh : shl_align (m * 4503599627370496) (-52) e = ((m * 4503599627370496)%positive, -52)).
    { unfold shl_align. destruct (e - -52) eqn:E; try reflexivity. lia. }
    rewrite Hsh.
    replace (Z.pos (m * 4503599627370496))
      with (Z.pos M * 2 ^ Z.of_nat (Z.to_nat (e + 52))).
    - replace (-52) with (e - Z.of_nat (Z.to_nat (e + 52))) at 1 by lia.
      now apply round_exact.
    - rewrite HM, Z2Nat.id, <- Z.mul_assoc, <- Z.pow_add_r by lia.
      replace (- e + (e + 52)) with 52 by lia.
      rewrite Pos2Z.inj_mul. reflexivity. }
  destruct z as [| m | m]; [reflexivity | |]; cbn [binary_normalize Z.mul Z.pow Z.pow_pos Pos.iter];
    apply H; cbn in Hz; lia.
Qed.

Lemma to_Z_finite (x : float) (s : bool) (M : positive) (e v : Z) :
  Prim2SF x = S754_finite s M e -> e <= 0 -> Z.pos M = v * 2 ^ (- e) ->
  to_Z x = Some (if s then - v else v).
Proof.
  intros Hx He HM. unfold to_Z. rewrite Hx.
  destruct (0 <=? e) eqn:E.
  - apply Z.leb_le in E. replace e with 0 in * by lia.
    cbn [Z.opp] in HM. rewrite Z.pow_0_r, Z.mul_1_r in *. now rewrite HM.
  - assert (Hpow : 0 < 2 ^ (- e)) by (apply Z.pow_pos_nonneg; lia).
    rewrite HM, Z.mod_mul, Z.div_mul by lia. reflexivity.
Qed.

(** An integer below 2^53 in absolute value is a number, and is read back
    from it. *)
Lemma to_Z_of_Z (z : Z) : Z.abs z < 2 ^ 53 -> to_Z (of_Z z) = Some z.
Proof.
  intros Hz. pose proof (of_Z_spec z Hz) as Hs.
  destruct z as [| m | m]; cbn [binary_normalize] in Hs.
  - unfold to_Z. now rewrite Hs.
  - destruct (round_integer false m) as (M & e & Hr & Hb & He & HM); [cbn in Hz; lia |].
    rewrite Hr in Hs. pose proof (digits_small m ltac:(cbn in Hz; lia)).
    apply (to_Z_finite _ _ _ _ (Z.pos m) Hs); [lia | exact HM].
  - destruct (round_integer true m) as (M & e & Hr & Hb & He & HM); [cbn in Hz; lia |].
    rewrite Hr in Hs. pose proof (digits_small m ltac:(cbn in Hz; lia)).
    apply (to_Z_finite _ _ _ _ (Z.pos m) Hs); [lia | exact HM].
Qed.

(** [p - 1] in JavaScript is the integer [p - 1]. *)
Lemma of_Z_pred (p : Z) :
  Z.abs p < 2 ^ 53 -> Z.abs (p - 1) < 2 ^ 53 ->
  (of_Z p - 1)%float = of_Z (p - 1).
Proof.
  intros Hp Hp1. apply Prim2SF_inj.
  rewrite sub_spec, !of_Z_spec by assumption.
  change (Prim2SF 1) with (S754_finite false 4503599627370496 (-52)).
  rewrite <- (normalize_fixed_point (p - 1)) by assumption.
  assert (H : forall s m, Z.pos m < 2 ^ 53 ->
            SF64sub (binary_round prec emax s m 0)
              (S754_finite false 4503599627370496 (-52))
            = binary_normalize prec emax
                ((cond_Zopp s (Z.pos m) - 1) * 2 ^ 52) (-52) false).
  { intros s m Hm.
    destruct (round_integer s m Hm) as (M & e & -> & Hb & He & HM).
    pose proof (digits_bounds m) as [Hd _].
    pose proof (digits_small m Hm) as Hsmall.
    unfold SF64sub, SFsub. stdlib_Z.
    replace (Z.min e (-52)) with (-52) by lia.
    destruct (shl_align_value M e (-52)) as (Hv & _); [lia |].
    rewrite Hv, HM, <- Z.mul_assoc, <- Z.pow_add_r by lia.
    replace (- e + (e - -52)) with 52 by lia.
    change (fst (shl_align 4503599627370496 (-52) (-52))) with 4503599627370496%positive.
    f_equal. destruct s; cbn [cond_Zopp]; lia. }
  destruct p as [| m | m]; [reflexivity | |]; cbn [binary_normalize];
    rewrite H by (cbn in Hp; lia); reflexivity.
Qed.

(** [a * b] in JavaScript is the integer [a * b] (a zero may carry the
    sign minus). *)
Lemma to_Z_mul (a b : Z) :
  Z.abs a < 2 ^ 53 -> Z.abs b < 2 ^ 53 -> Z.abs (a * b) < 2 ^ 53 ->
  to_Z (of_Z a * of_Z b)%float = Some (a * b).
Proof.
  intros Ha Hb Hab.
  assert (H : forall sa sb ma mb,
            Z.pos ma < 2 ^ 53 -> Z.pos mb < 2 ^ 53 -> Z.pos (ma * mb) < 2 ^ 53 ->
            exists M e,
              SF64mul (binary_round prec emax sa ma 0) (binary_round prec emax sb mb 0)
              = S754_finite (xorb sa sb) M e /\
              e <= 0 /\ Z.pos M = Z.pos (ma * mb) * 2 ^ (- e)).
  { intros sa sb ma mb Hma Hmb Hm.
    destruct (round_integer sa ma Hma) as (Ma & ea & -> & _ & Hea & HMa).
    destruct (round_integer sb mb Hmb) as (Mb & eb & -> & _ & Heb & HMb).
    destruct (round_integer (xorb sa sb) (ma * mb) Hm) as (M & e & _ & Hbd & He & HM).
    pose proof (digits_small ma Hma). pose proof (digits_small mb Hmb).
    pose proof (digits_small (ma * mb) Hm).
    pose proof (digits_bounds ma) as [Hda _]. pose proof (digits_bounds mb) as [Hdb _].
    assert (Hmono : Z.pos (digits2_pos ma) <= Z.pos (digits2_pos (ma * mb)))
      by (apply digits_mono; nia).
    exists M, e. split; [| split; [lia | exact HM]].
    unfold SF64mul, SFmul.
    replace (Z.pos (Ma * Mb)) with (Z.pos M * 2 ^ Z.of_nat (Z.to_nat (e - ea - eb))).
    - replace (ea + eb) with (e - Z.of_nat (Z.to_nat (e - ea - eb))) by lia.
      now apply round_exact.
    - rewrite HM, Z2Nat.id, <- Z.mul_assoc, <- Z.pow_add_r by lia.
      replace (- e + (e - ea - eb)) with (- ea + - eb) by lia.
      rewrite Z.pow_add_r, !Pos2Z.inj_mul, HMa, HMb by lia. ring. }
  assert (Hx : Prim2SF (of_Z a * of_Z b)%float
               = SF64mul (binary_normalize prec emax a 0 false)
                   (binary_normalize prec emax b 0 false))
    by (now rewrite mul_spec, !of_Z_spec).
  destruct a as [| ma | ma], b as [| mb | mb]; cbn [binary_normalize] in Hx.
  all: try (unfold to_Z; rewrite Hx; reflexivity).
  all: try match type of Hx with
       | _ = SF64mul (binary_round _ _ ?sa ?ma 0) (binary_round _ _ ?sb ?mb 0) =>
           destruct (H sa sb ma mb) as (M & e & HH & He & HM);
           [cbn in Ha; lia | cbn in Hb; lia | cbn in Hab; lia |];
           rewrite HH in Hx;
           exact (to_Z_finite _ _ _ _ (Z.pos (ma * mb)) Hx He HM)
       end.
  all: match type of Hx with
       | context [binary_round _ _ ?s ?m 0] =>
           destruct (round_integer s m) as (M & e & HH & _);
           [cbn in Ha, Hb; lia |];
           rewrite HH in Hx; unfold to_Z; rewrite Hx; reflexivity
       end.
Qed.

Lemma integer_of_Z (z : Z) :
  Z.abs z < 2 ^ 53 -> Sql.integer (of_Z z) = Some z.
Proof.
  intros Hz. unfold Sql.integer. rewrite to_Z_of_Z by exact Hz.
  destruct (Z.ltb_spec (- 2 ^ 63) z), (Z.ltb_spec z (2 ^ 63)); cbn [andb]; try reflexivity; lia.
Qed.

(** [(page - 1) * limit] in JavaScript, as SQLite reads it. *)
Lemma integer_offset (page limit : Z) :
  Z.abs page < 2 ^ 53 -> Z.abs (page - 1) < 2 ^ 53 -> Z.abs limit < 2 ^ 53 ->
  Z.abs ((page - 1) * limit) < 2 ^ 53 ->
  Sql.integer (PrimFloat.mul (PrimFloat.sub (of_Z page) 1) (of_Z limit))
  = Some ((page - 1) * limit).
Proof.
  intros Hp Hp1 Hl Ho. unfold Sql.integer.
  rewrite of_Z_pred, to_Z_mul by assumption.
  destruct (Z.ltb_spec (- 2 ^ 63) ((page - 1) * limit)),
           (Z.ltb_spec ((page - 1) * limit) (2 ^ 63)); cbn [andb]; try reflexivity; lia.
Qed.

End Integers.

(** ** Search *)

Section Search.
Import Js DocumentService.

Lemma joined_rows_distance (env : environment) (w : world) (probe : list float)
    (row : search_row) :
  In row (joined_rows env w probe) ->
  exists d e,
    In d (documents w) /\ In e (embeddings w) /\ emb_doc_id e = doc_id d /\
    row_id row = doc_id d /\
    row_distance row = Sql.real (vec_distance_cosine env (emb_vector e) probe).
Proof.
  unfold joined_rows, Sql.join. intros Hin.
  apply in_map_iff in Hin as ([d e] & <- & Hin).
  apply in_flat_map in Hin as (d' & Hd & Hin).
  apply in_map_iff in Hin as (e' & [= <- <-] & He).
  apply filter_In in He as [He Hid]. apply Nat.eqb_eq in Hid.
  exists d', e'. cbn. auto.
Qed.

Lemma real_number (x d : float) :
  Sql.real x = Some d -> x = d /\ PrimFloat.is_nan d = false.
Proof.
  unfold Sql.real. destruct (PrimFloat.is_nan x) eqn:E; [discriminate |].
  intros [= <-]. auto.
Qed.

Lemma real_null (x : float) :
  Sql.real x = None -> PrimFloat.is_nan x = true.
Proof. unfold Sql.real. now destruct (PrimFloat.is_nan x). Qed.

Lemma ranked_rows_sorted (env : environment) (w : world) (probe : list float) :
  StronglySorted (fun r1 r2 => distance_le r1 r2 = true) (ranked_rows env w probe).
Proof.
  unfold ranked_rows.
  apply (order_by_sorted distance_le
           (fun r => forall d, row_distance r = Some d -> PrimFloat.is_nan d = false)).
  - intros a b Ha Hb. unfold distance_le, Sql.real_le.
    destruct (row_distance a) as [x |], (row_distance b) as [y |];
      try discriminate; try reflexivity.
    apply leb_total; auto.
  - intros a b c. unfold distance_le, Sql.real_le.
    destruct (row_distance a), (row_distance b), (row_distance c);
      try discriminate; try reflexivity.
    apply leb_trans.
  - apply Forall_forall. intros row Hin d Hd.
    apply joined_rows_distance in Hin as (d0 & e & _ & _ & _ & _ & Hdist).
    rewrite Hdist in Hd. now apply real_number in Hd.
Qed.

Lemma searchDocuments_run (env : environment) (w : world) (q : text)
    (e : option (list float)) (limit offset : float) (l o : Z) :
  provider env (calls w) q = Responds e ->
  db_error env (log_call q w) = false ->
  Sql.integer limit = Some l -> Sql.integer offset = Some o ->
  searchDocuments env q limit offset w =
  (Returned (map to_result
               (Sql.limit_offset l o
                  (ranked_rows env (log_call q w) (float32Array e)))),
   log_call q w).
Proof.
  intros Hp Hdb Hl Ho.
  unfold searchDocuments, bind, EmbeddingService.generateEmbedding, db_all_search, ret.
  now rewrite Hp, Hdb, Hl, Ho.
Qed.

(** A search whose page and limit are small enough for the arithmetic on
    them to be exact. *)
Lemma search_run (env : environment) (w : world) (body : Routes.search_body)
    (q : text) (e : option (list float)) :
  Routes.body_query body = Some q -> q <> [] ->
  provider env (calls w) q = Responds e ->
  db_error env (log_call q w) = false ->
  let limit := match Routes.body_limit body with Some l => l | None => 10%Z end in
  let page := match Routes.body_page body with Some p => p | None => 1%Z end in
  (Z.abs page < 2 ^ 53)%Z -> (Z.abs (page - 1) < 2 ^ 53)%Z ->
  (Z.abs limit < 2 ^ 53)%Z -> (Z.abs ((page - 1) * limit) < 2 ^ 53)%Z ->
  Routes.search env body w =
  (Returned (Routes.Json
     {| Routes.search_results :=
          map to_result
            (Sql.limit_offset limit ((page - 1) * limit)
               (ranked_rows env (log_call q w) (float32Array e)));
        Routes.search_page := JsInteger.of_Z page;
        Routes.search_limit := JsInteger.of_Z limit |}),
   log_call q w).
Proof.
  intros Hbody Hq Hprov Hdb limit page Hp Hp1 Hl Ho.
  destruct q as [| c q]; [congruence |].
  unfold Routes.search. rewrite Hbody. fold limit page.
  unfold try_catch, bind.
  rewrite (searchDocuments_run env w (c :: q) e _ _ limit ((page - 1) * limit));
    [reflexivity | assumption | assumption
    | now apply integer_of_Z | now apply integer_offset].
Qed.

(** A search whose limit or offset the database cannot read as an integer
    is answered 500. *)
Lemma search_refused (env : environment) (w : world) (body : Routes.search_body)
    (q : text) (e : option (list float)) :
  Routes.body_query body = Some q -> q <> [] ->
  provider env (calls w) q = Responds e ->
  let limit :=
    JsInteger.of_Z (match Routes.body_limit body with Some l => l | None => 10%Z end) in
  let page :=
    JsInteger.of_Z (match Routes.body_page body with Some p => p | None => 1%Z end) in
  Sql.integer limit = None \/
  Sql.integer (PrimFloat.mul (PrimFloat.sub page 1) limit) = None ->
  Routes.search env body w
  = (Returned (Routes.Status 500 (lit "Failed to perform search")), log_call q w).
Proof.
  intros Hbody Hq Hprov limit page Hnone.
  destruct q as [| c q]; [congruence |].
  unfold Routes.search. rewrite Hbody. fold limit page.
  unfold try_catch, bind, ret, searchDocuments, bind,
    EmbeddingService.generateEmbedding, db_all_search, ret.
  rewrite Hprov.
  destruct (db_error env (log_call (c :: q) w)); [reflexivity |].
  destruct Hnone as [-> | ->]; [reflexivity |].
  now destruct (Sql.integer limit).
Qed.

(** C3. A search with a non-empty query and positive integers [page] and
    [limit] (10 and 1 when the body leaves them out), answered by the
    provider and by the database. The ranking is the whole join ordered by
    ascending distance (rows without a distance first). When
    [page * limit < 2^53], the search computes [offset = (page - 1) * limit],
    which the database reads as that integer, and returns the rows from
    position [offset] (counted from 0) of the ranking, at most [limit] of
    them, in that order: result [k] is the row of rank [offset + k + 1]. When
    the database cannot read the limit or the computed offset as a 64-bit
    integer, the answer is 500. *)
Theorem search_pagination (env : environment) (w : world)
    (body : Routes.search_body) (q : text) (e : option (list float)) :
  let limit := match Routes.body_limit body with Some l => l | None => 10%Z end in
  let page := match Routes.body_page body with Some p => p | None => 1%Z end in
  Routes.body_query body = Some q ->
  q <> [] -> (0 < limit)%Z -> (0 < page)%Z ->
  provider env (calls w) q = Responds e ->
  db_error env (log_call q w) = false ->
  let w' := log_call q w in
  let ranked := ranked_rows env w' (float32Array e) in
  let offset := (Z.to_nat page - 1) * Z.to_nat limit in
  let results := map to_result (firstn (Z.to_nat limit) (skipn offset ranked)) in
  let js_limit := JsInteger.of_Z limit in
  let js_offset := PrimFloat.mul (PrimFloat.sub (JsInteger.of_Z page) 1) js_limit in
  Permutation ranked (joined_rows env w' (float32Array e)) /\
  StronglySorted (fun r1 r2 => Sql.real_le (row_distance r1) (row_distance r2) = true)
    ranked /\
  Z.of_nat offset = ((page - 1) * limit)%Z /\
  (forall k, k < Z.to_nat limit ->
     nth_error results k = nth_error (map to_result ranked) (offset + k)) /\
  ((page * limit < 2 ^ 53)%Z ->
   Sql.integer js_limit = Some limit /\
   Sql.integer js_offset = Some (Z.of_nat offset) /\
   Routes.search env body w
   = (Returned (Routes.Json
        {| Routes.search_results := results;
           Routes.search_page := JsInteger.of_Z page;
           Routes.search_limit := js_limit |}), w')) /\
  (Sql.integer js_limit = None \/ Sql.integer js_offset = None ->
   Routes.search env body w
   = (Returned (Routes.Status 500 (lit "Failed to perform search")), w')).
Proof.
  intros limit page Hbody Hq Hl Hp Hprov Hdb w' ranked offset results
    js_limit js_offset.
  assert (Hoff : Z.of_nat offset = ((page - 1) * limit)%Z).
  { unfold offset.
    rewrite Nat2Z.inj_mul, Nat2Z.inj_sub by lia.
    now rewrite !Z2Nat.id by lia. }
  split; [| split; [| split; [| split; [| split]]]].
  - apply order_by_perm.
  - apply ranked_rows_sorted.
  - exact Hoff.
  - intros k Hk. unfold results.
    rewrite !nth_error_map, nth_error_firstn, nth_error_skipn.
    apply Nat.ltb_lt in Hk. now rewrite Hk.
  - intros Hsmall.
    assert (Hbp : (Z.abs page < 2 ^ 53)%Z) by nia.
    assert (Hbp1 : (Z.abs (page - 1) < 2 ^ 53)%Z) by nia.
    assert (Hbl : (Z.abs limit < 2 ^ 53)%Z) by nia.
    assert (Hbo : (Z.abs ((page - 1) * limit) < 2 ^ 53)%Z) by nia.
    split; [now apply integer_of_Z |].
    split; [rewrite Hoff; now apply integer_offset |].
    pose proof (search_run env w body q e Hbody Hq Hprov Hdb) as Hrun.
    cbn zeta in Hrun. fold limit page in Hrun.
    rewrite Hrun by assumption.
    rewrite limit_offset_page by assumption. reflexivity.
  - apply (search_refused env w body q e Hbody Hq Hprov).
Qed.

Lemma search_pagination_witness :
  exists results,
    fst (Routes.search Sample.shelf
           {| Routes.body_query := Some (lit "hello");
              Routes.body_limit := Some 10%Z; Routes.body_page := Some 2%Z |}
           Sample.twelve)
    = Returned (Routes.Json
        {| Routes.search_results := results; Routes.search_page := 2%float;
           Routes.search_limit := 10%float |}) /\
    map res_id results = [2; 1].
Proof.
  destruct (search_pagination Sample.shelf Sample.twelve
              {| Routes.body_query := Some (lit "hello");
                 Routes.body_limit := Some 10%Z; Routes.body_page := Some 2%Z |}
              (lit "hello") (Some [1%float; 0%float]))
    as (_ & _ & _ & _ & Hrun & _).
  - reflexivity.
  - discriminate.
  - cbn. lia.
  - cbn. lia.
  - vm_compute. reflexivity.
  - reflexivity.
  - destruct Hrun as (_ & _ & Hrun); [cbn; lia |].
    eexists. split; [rewrite Hrun; reflexivity |].
    vm_compute. reflexivity.
Defined.

(** A page so far that its offset is no 64-bit integer: with page 10^18 and
    limit 10 the database refuses the statement, and the answer is 500, not
    the (empty) slice of the ranking. *)
Lemma search_far_page_counterexample :
  let body := {| Routes.body_query := Some (lit "hello");
                 Routes.body_limit := Some 10%Z;
                 Routes.body_page := Some (10 ^ 18)%Z |} in
  (0 < 10)%Z /\ (0 < 10 ^ 18)%Z /\
  provider Sample.shelf (calls Sample.twelve) (lit "hello")
    = Responds (Some [1%float; 0%float]) /\
  db_error Sample.shelf (log_call (lit "hello") Sample.twelve) = false /\
  fst (Routes.search Sample.shelf body Sample.twelve)
    = Returned (Routes.Status 500 (lit "Failed to perform search")) /\
  Sql.integer
    (PrimFloat.mul (PrimFloat.sub (JsInteger.of_Z (10 ^ 18)) 1) (JsInteger.of_Z 10))
    = None.
Proof.
  cbn zeta. repeat split; try lia; vm_compute; reflexivity.
Qed.

Lemma limit_offset_incl {A} (limit offset : Z) (rows : list A) (x : A) :
  In x (Sql.limit_offset limit offset rows) -> In x rows.
Proof.
  unfold Sql.limit_offset. intros Hin.
  assert (Hskip : forall n (l : list A), In x (skipn n l) -> In x l).
  { intros n l H. rewrite <- (firstn_skipn n l). apply in_or_app. now right. }
  assert (Hfirst : forall n (l : list A), In x (firstn n l) -> In x l).
  { intros n l H. rewrite <- (firstn_skipn n l). apply in_or_app. now left. }
  destruct (limit <? 0)%Z; eauto.
Qed.

(** The rows a successful [searchDocuments] maps to its results. *)
Lemma searchDocuments_rows (env : environment) (w w' : world) (q : text)
    (limit offset : float) (results : list search_result) :
  searchDocuments env q limit offset w = (Returned results, w') ->
  exists e l o,
    provider env (calls w) q = Responds e /\
    db_error env (log_call q w) = false /\
    Sql.integer limit = Some l /\ Sql.integer offset = Some o /\
    w' = log_call q w /\
    results = map to_result
                (Sql.limit_offset l o
                   (ranked_rows env (log_call q w) (float32Array e))).
Proof.
  unfold searchDocuments, bind, EmbeddingService.generateEmbedding, db_all_search, ret.
  destruct (provider env (calls w) q) as [| e]; [discriminate |].
  destruct (db_error env (log_call q w)); [discriminate |].
  destruct (Sql.integer limit) as [l |]; [| discriminate].
  destruct (Sql.integer offset) as [o |]; [| discriminate].
  intros [= <- <-]. exists e, l, o. auto 10.
Qed.

(** C4. Every result of a search belongs to a vector stored under its
    document id. When the vector store reports a number as the distance of
    that vector to the probe, the similarity is [1 - distance]: a distance of
    0 gives exactly 1, a distance of 2 gives exactly -1. When the distance is
    NaN, the row carries no distance and the similarity is 1. *)
Theorem similarity_is_one_minus_distance (env : environment) (w w' : world)
    (q : text) (limit offset : float) (results : list search_result) :
  searchDocuments env q limit offset w = (Returned results, w') ->
  exists e,
    provider env (calls w) q = Responds e /\
    Forall
      (fun res =>
         exists stored,
           In stored (embeddings w) /\ emb_doc_id stored = res_id res /\
           let distance :=
             vec_distance_cosine env (emb_vector stored) (float32Array e) in
           (PrimFloat.is_nan distance = false ->
            res_similarity res = PrimFloat.sub 1 distance /\
            (distance = 0%float -> res_similarity res = 1%float) /\
            (distance = 2%float -> res_similarity res = (-1)%float)) /\
           (PrimFloat.is_nan distance = true -> res_similarity res = 1%float))
      results.
Proof.
  intros Hrun.
  apply searchDocuments_rows in Hrun as (e & l & o & Hprov & _ & _ & _ & _ & ->).
  exists e. split; [exact Hprov |].
  apply Forall_forall. intros res Hin.
  apply in_map_iff in Hin as (row & <- & Hin).
  apply limit_offset_incl in Hin.
  apply (Permutation_in _ (order_by_perm distance_le _)) in Hin.
  apply joined_rows_distance in Hin as (d & stored & _ & Hs & Hid & Hrow & Hdist).
  exists stored. cbn [embeddings log_call] in Hs.
  split; [exact Hs |]. split; [cbn; congruence |].
  cbn [res_similarity to_result]. rewrite Hdist. unfold Sql.real.
  split; intros Hnan; rewrite Hnan; cbn [to_number]; [| reflexivity].
  split; [reflexivity |].
  split; intros ->; reflexivity.
Qed.

Lemma similarity_is_one_minus_distance_witness :
  let env := Sample.twins in
  let w := Sample.ingest env [lit "a.txt"] initial_world in
  let results :=
    match fst (searchDocuments env (lit "hello") 10 0 w) with
    | Returned rs => rs
    | _ => []
    end in
  map res_similarity results = [1%float] /\
  exists e,
    provider env (calls w) (lit "hello") = Responds e /\
    Forall
      (fun res =>
         exists stored,
           In stored (embeddings w) /\ emb_doc_id stored = res_id res /\
           let distance :=
             vec_distance_cosine env (emb_vector stored) (float32Array e) in
           (PrimFloat.is_nan distance = false ->
            res_similarity res = PrimFloat.sub 1 distance /\
            (distance = 0%float -> res_similarity res = 1%float) /\
            (distance = 2%float -> res_similarity res = (-1)%float)) /\
           (PrimFloat.is_nan distance = true -> res_similarity res = 1%float))
      results.
Proof.
  intros env w results.
  split; [vm_compute; reflexivity |].
  apply (similarity_is_one_minus_distance env w (log_call (lit "hello") w)
           (lit "hello") 10 0).
  vm_compute. reflexivity.
Defined.

(** A stored zero vector has no cosine distance to the probe: the store
    computes NaN, the row comes back without a distance, and the result
    carries the similarity 1, which is not [1 - distance]. *)
Lemma similarity_without_distance_counterexample :
  let env := Sample.blank in
  let w := Sample.ingest env [lit "a.txt"] initial_world in
  let probe := float32Array (Some [1%float; 0%float]) in
  exists res stored,
    fst (searchDocuments env (lit "hello") 10 0 w) = Returned [res] /\
    embeddings w = [stored] /\ emb_doc_id stored = res_id res /\
    let distance := vec_distance_cosine env (emb_vector stored) probe in
    PrimFloat.is_nan distance = true /\
    res_similarity res = 1%float /\
    PrimFloat.eqb (res_similarity res) (PrimFloat.sub 1 distance) = false /\
    PrimFloat.eqb distance 0 = false.
Proof.
  cbn zeta. eexists. eexists.
  split; [vm_compute; reflexivity |].
  split; [vm_compute; reflexivity |].
  repeat split; vm_compute; reflexivity.
Qed.

End Search.

(** ** Arithmetic of JavaScript numbers: [x / 1] and [0 + x] *)

Lemma div_eucl_pair (a b : Z) : Z.div_eucl a b = ((a / b)%Z, (a mod b)%Z).
Proof. unfold Z.div, Z.modulo. now destruct (Z.div_eucl a b). Qed.

(** The same mantissa with one more binary digit, one exponent lower. *)
Lemma round_canonical_shifted (sx : bool) (mx : positive) (ex : Z) :
  SpecFloat.bounded prec emax mx ex = true ->
  binary_round_aux prec emax sx (Z.pos mx~0) (ex - 1) loc_Exact
  = S754_finite sx mx ex.
Proof.
  unfold SpecFloat.bounded, canonical_mantissa.
  intros Hb. apply andb_prop in Hb as [Hc He].
  apply Z.eqb_eq in Hc.
  unfold binary_round_aux, shr_fexp. cbn [Zdigits2 shr_record_of_loc digits2_pos].
  stdlib_Z.
  replace (Z.pos (Pos.succ (digits2_pos mx)) + (ex - 1))%Z
    with (Z.pos (digits2_pos mx) + ex)%Z by lia.
  rewrite Hc. replace (ex - (ex - 1))%Z with 1%Z by lia.
  cbn [shr SpecFloat.iter_pos shr_1 orb shr_m loc_of_shr_record round_nearest_even
       Zdigits2 shr_record_of_loc].
  stdlib_Z.
  replace (ex - 1 + 1)%Z with ex by lia.
  rewrite Hc, Z.sub_diag. cbn [shr shr_m].
  now rewrite He.
Qed.

Lemma SFdiv_one_finite (sx : bool) (mx : positive) (ex : Z) :
  SpecFloat.bounded prec emax mx ex = true ->
  SFdiv prec emax (S754_finite sx mx ex) (S754_finite false 4503599627370496 (-52))
  = S754_finite sx mx ex.
Proof.
  intros Hb. generalize Hb.
  unfold SpecFloat.bounded, canonical_mantissa, fexp, emin, prec, emax.
  intros Hb'. apply andb_prop in Hb' as [Hc He].
  apply Z.eqb_eq in Hc. apply Z.leb_le in He.
  unfold SFdiv, SFdiv_core_binary.
  change (Zdigits2 (Z.pos 4503599627370496)) with 53%Z.
  cbn [Zdigits2].
  set (d := Z.pos (digits2_pos mx)) in *.
  assert (Hd : (0 < d)%Z) by (unfold d; lia).
  unfold fexp, emin.
  stdlib_Z.
  rewrite xorb_false_r.
  destruct (Z.eq_dec (Z.max (d + ex - 54) (-1074)) ex) as [Hsub | Hnorm].
  - replace (Z.min (Z.max (d + ex - (53 + -52) - 53) (3 - 1024 - 53)) (ex - -52))
      with ex by lia.
    replace (ex - -52 - ex)%Z with 52%Z by lia.
    rewrite Z.shiftl_mul_pow2, div_eucl_pair by lia.
    rewrite Z.div_mul, Z.mod_mul by lia.
    change (new_location (2 ^ 52) 0) with loc_Exact.
    now apply round_canonical.
  - replace (Z.min (Z.max (d + ex - (53 + -52) - 53) (3 - 1024 - 53)) (ex - -52))
      with (ex - 1)%Z by lia.
    replace (ex - -52 - (ex - 1))%Z with 53%Z by lia.
    rewrite Z.shiftl_mul_pow2, div_eucl_pair by lia.
    change (2 ^ 53)%Z with (2 * 2 ^ 52)%Z. rewrite Z.mul_assoc.
    rewrite Z.div_mul, Z.mod_mul by lia.
    change (new_location (2 ^ 52) 0) with loc_Exact.
    replace (Z.pos mx * 2)%Z with (Z.pos mx~0) by lia.
    now apply round_canonical_shifted.
Qed.

Lemma SFdiv_one (s : spec_float) :
  valid_binary s = true -> SF64div s (Prim2SF 1) = s.
Proof.
  intros Hv. change (Prim2SF 1) with (S754_finite false 4503599627370496 (-52)).
  destruct s as [sx | sx | | sx mx ex]; cbn; try reflexivity;
    try (now rewrite xorb_false_r).
  now apply SFdiv_one_finite.
Qed.

Lemma float_div_one (x : float) : PrimFloat.div x 1 = x.
Proof.
  apply Prim2SF_inj. rewrite div_spec. apply SFdiv_one, Prim2SF_valid.
Qed.

Lemma float_zero_add (x : float) :
  x <> (-0)%float -> PrimFloat.add 0 x = x.
Proof.
  intros Hx. apply Prim2SF_inj. rewrite add_spec.
  change (Prim2SF 0) with (S754_zero false).
  destruct (Prim2SF x) as [[|] | sx | | sx mx ex] eqn:E; try reflexivity.
  exfalso. apply Hx. apply Prim2SF_inj. now rewrite E.
Qed.

(** The average of a single number: the number itself, except that the
    negative zero comes back as the positive zero; equal in the sense of
    JavaScript's [===] whenever the number is not NaN. *)
Lemma mean_of_one (x : float) :
  let a := div (add zero x) (of_nat 1) in
  (a = x \/ (x = (-0)%float /\ a = 0%float)) /\
  (PrimFloat.is_nan x = false -> PrimFloat.eqb a x = true).
Proof.
  cbn zeta. change (of_nat 1) with 1%float. cbn [div add zero JsNumber].
  rewrite float_div_one.
  assert (Hx : PrimFloat.add 0 x = x \/ (x = (-0)%float /\ PrimFloat.add 0 x = 0%float)).
  { destruct (PrimFloat.Leibniz.eqb x (-0)%float) eqn:E.
    - apply FloatAxioms.Leibniz.eqb_spec in E. subst x. right. split; reflexivity.
    - left. apply float_zero_add. intros ->. discriminate E. }
  split; [exact Hx |].
  intros Hnan. destruct Hx as [-> | [-> ->]]; [| reflexivity].
  unfold PrimFloat.is_nan in Hnan. now apply negb_false_iff in Hnan.
Qed.

(** ** The embedding pipeline as a whole *)

Section Pipeline.
Import Js EmbeddingService.

Lemma same_store_refl (w : world) : same_store w w.
Proof. repeat split. Qed.

Lemma same_store_trans (w1 w2 w3 : world) :
  same_store w1 w2 -> same_store w2 w3 -> same_store w1 w3.
Proof. unfold same_store. intuition congruence. Qed.

Lemma generateEmbedding_store (env : environment) (t : text) (w : world) :
  fst (generateEmbedding env t w) <> Diverged /\
  same_store w (snd (generateEmbedding env t w)) /\
  calls (snd (generateEmbedding env t w)) = calls w ++ [t].
Proof.
  unfold generateEmbedding.
  destruct (provider env (calls w) t); cbn; repeat split; discriminate.
Qed.

Lemma embed_chunks_store (env : environment) (chunks : list text) :
  forall acc w,
    fst (embed_chunks env chunks acc w) <> Diverged /\
    same_store w (snd (embed_chunks env chunks acc w)).
Proof.
  induction chunks as [| chunk rest IH]; intros acc w; cbn [embed_chunks].
  - cbn. split; [discriminate | apply same_store_refl].
  - unfold bind.
    destruct (generateEmbedding_store env chunk w) as (Hnd & Hst & _).
    destruct (generateEmbedding env chunk w) as [[e | err |] w1]; cbn in *.
    + destruct (IH (acc ++ [e]) w1) as [Hnd' Hst'].
      split; [exact Hnd' |]. eapply same_store_trans; eassumption.
    + split; [discriminate | exact Hst].
    + congruence.
Qed.

Lemma reduce_column_returns {num} `{Arith num}
    (embeddings : list (option (list num))) (i : nat) :
  reduce_column embeddings i <> Diverged.
Proof.
  unfold reduce_column.
  assert (Hgen : forall acc, acc <> Diverged ->
            fold_left
              (fun acc emb =>
                 match acc, emb with
                 | Returned sum, Some v => Returned (add_element sum (nth_error v i))
                 | Returned _, None => Thrown TypeError
                 | stopped, _ => stopped
                 end) embeddings acc <> Diverged).
  { induction embeddings as [| emb rest IH]; intros acc Hacc; cbn; [exact Hacc |].
    apply IH. destruct acc, emb; congruence. }
  apply Hgen. discriminate.
Qed.

Lemma map_columns_returns {num} `{Arith num}
    (embeddings : list (option (list num))) (first : list num) :
  forall i, map_columns embeddings first i <> Diverged.
Proof.
  induction first as [| x first IH]; intros i; cbn [map_columns]; [discriminate |].
  pose proof (reduce_column_returns embeddings i) as Hr.
  destruct (reduce_column embeddings i); try congruence.
  specialize (IH (S i)).
  destruct (map_columns embeddings first (S i)); congruence.
Qed.

Lemma averageEmbeddings_returns {num} `{Arith num}
    (embeddings : list (option (list num))) :
  averageEmbeddings embeddings <> Diverged.
Proof.
  destruct embeddings as [| [first |] rest]; cbn; try discriminate.
  pose proof (map_columns_returns (Some first :: rest) first 0) as Hm.
  destruct (map_columns (Some first :: rest) first 0); congruence.
Qed.

Lemma chunkText_default (content : text) :
  exists chunks,
    chunkText content default_chunkSize = Some chunks /\
    concat chunks = content /\
    length chunks = (length content + default_chunkSize - 1) / default_chunkSize.
Proof.
  destruct (chunkText_loop_spec content default_chunkSize) with
    (fuel := length content) (i := 0) (acc := @nil text)
    as (cs & Hrun & Hcat & Hlen & _).
  - unfold default_chunkSize. lia.
  - lia.
  - exists cs. cbn in Hcat, Hlen. auto.
Qed.

(** [generateEmbeddingsForDocument] always settles, and touches nothing but
    the provider. *)
Lemma generateEmbeddingsForDocument_store (env : environment) (content : text)
    (w : world) :
  fst (generateEmbeddingsForDocument env content w) <> Diverged /\
  same_store w (snd (generateEmbeddingsForDocument env content w)).
Proof.
  unfold generateEmbeddingsForDocument.
  destruct (chunkText_default content) as (chunks & -> & _).
  unfold bind, lift.
  destruct (embed_chunks_store env chunks [] w) as [Hnd Hst].
  destruct (embed_chunks env chunks [] w) as [[embs | err |] w1]; cbn in *.
  - split; [apply averageEmbeddings_returns | exact Hst].
  - split; [discriminate | exact Hst].
  - congruence.
Qed.

(** Once the text is extracted and the document row inserted, [saveDocument]
    resolves with the new id and the whole text, whatever happens to the
    embedding; a vector is inserted only when one was returned. *)
Lemma saveDocument_run (env : environment) (filename filePath content : text)
    (w : world) :
  extractText env filePath = Some content ->
  db_error env w = false ->
  let docId := S (documents_seq w) in
  let w0 := DocumentService.with_document filename
              (DocumentService.contentPreview content) w in
  let run := generateEmbeddingsForDocument env content w0 in
  DocumentService.saveDocument env filename filePath w =
  (Returned {| DocumentService.saved_id := docId;
               DocumentService.saved_content := content |},
   match fst run with
   | Returned (Some v) => snd (DocumentService.insert_embedding env docId v (snd run))
   | _ => snd run
   end).
Proof.
  intros Hx Hdb docId w0 run.
  unfold DocumentService.saveDocument. rewrite Hx.
  unfold bind at 1. unfold DocumentService.insert_document. rewrite Hdb.
  fold docId w0.
  unfold try_catch, bind, ret.
  fold run.
  pose proof (generateEmbeddingsForDocument_store env content w0) as [Hnd _].
  fold run in Hnd.
  destruct run as [[[v |] | err |] w1]; cbn [fst snd] in *; try congruence.
  unfold DocumentService.insert_embedding.
  destruct (db_error env w1); reflexivity.
Qed.

End Pipeline.

(** ** Short and empty texts *)

Section ShortText.
Import Js EmbeddingService.

Lemma chunkText_single (t : text) (c : nat) :
  t <> [] -> length t <= c -> chunkText t c = Some [t].
Proof.
  intros Hne Hlen. unfold chunkText.
  destruct t as [| a t']; [congruence |].
  cbn [length] in *.
  rewrite chunkText_loop_iter by (cbn [length]; lia).
  rewrite chunkText_loop_exit by (cbn [length]; lia).
  unfold slice. rewrite Nat.add_0_l, Nat.sub_0_r, skipn_0.
  now rewrite firstn_all2 by (cbn [length]; lia).
Qed.

Lemma map_seq_nth {A B} (g : A -> B) (d : A) (v : list A) :
  map (fun j => g (nth j v d)) (seq 0 (length v)) = map g v.
Proof.
  apply nth_error_ext. intros n.
  rewrite !nth_error_map, nth_error_seq.
  destruct (Nat.ltb_spec n (length v)) as [Hn | Hn].
  - cbn. now rewrite (nth_error_nth' v d Hn).
  - apply nth_error_None in Hn. now rewrite Hn.
Qed.

(** C10. For a non-empty text of at most 2000 characters that the provider
    answers with the vector [v], [generateEmbeddingsForDocument] posts the text
    once (the call log grows by exactly that text, as it does for
    [generateEmbedding]) and returns a vector of the same length whose
    elements are those of [v]: identical, except that a negative zero comes
    back as the positive zero, and equal under JavaScript's [===] wherever
    [v] is not NaN. *)
Theorem short_text_single_call (env : environment) (w : world) (t : text)
    (v : list float) :
  t <> [] -> length t <= 2000 ->
  provider env (calls w) t = Responds (Some v) ->
  exists avg,
    generateEmbeddingsForDocument env t w = (Returned (Some avg), log_call t w) /\
    generateEmbedding env t w = (Returned (Some v), log_call t w) /\
    calls (log_call t w) = calls w ++ [t] /\
    Forall2
      (fun a x =>
         (a = x \/ (x = (-0)%float /\ a = 0%float)) /\
         (PrimFloat.is_nan x = false -> PrimFloat.eqb a x = true))
      avg v.
Proof.
  intros Hne Hlen Hprov.
  exists (map (fun x => div (add zero x) (of_nat 1)) v).
  split; [| split; [| split]].
  - unfold generateEmbeddingsForDocument.
    rewrite (chunkText_single t default_chunkSize Hne Hlen).
    cbn [embed_chunks]. unfold bind, lift, ret, generateEmbedding.
    rewrite Hprov. cbn [app].
    change [Some v] with (map Some [v]).
    rewrite (averageEmbeddings_vectors [v] (length v));
      [| discriminate | intros v' [<- | []]; reflexivity].
    do 3 f_equal.
    unfold column_sum. cbn [map fold_left length].
    apply (map_seq_nth (fun x => div (add zero x) (of_nat 1))).
  - unfold generateEmbedding. now rewrite Hprov.
  - reflexivity.
  - clear. induction v as [| x v IH]; cbn [map]; constructor; [| exact IH].
    apply mean_of_one.
Qed.

Lemma short_text_single_call_witness :
  fst (generateEmbeddingsForDocument Sample.twins (lit "hello") initial_world)
  = Returned (Some [1%float; 0%float]) /\
  exists avg,
    generateEmbeddingsForDocument Sample.twins (lit "hello") initial_world
    = (Returned (Some avg), log_call (lit "hello") initial_world) /\
    generateEmbedding Sample.twins (lit "hello") initial_world
    = (Returned (Some [1%float; 0%float]), log_call (lit "hello") initial_world) /\
    calls (log_call (lit "hello") initial_world) = [] ++ [lit "hello"] /\
    Forall2
      (fun a x =>
         (a = x \/ (x = (-0)%float /\ a = 0%float)) /\
         (PrimFloat.is_nan x = false -> PrimFloat.eqb a x = true))
      avg [1%float; 0%float].
Proof.
  split; [vm_compute; reflexivity |].
  apply (short_text_single_call Sample.twins initial_world (lit "hello")).
  - discriminate.
  - cbn. lia.
  - reflexivity.
Defined.

End ShortText.

(** ** How the store evolves *)

Section Store.
Import Js DocumentService.

Lemma same_store_grows (w w' : world) : same_store w w' -> grows w w'.
Proof. intros (Hd & He & Hs & _). left. auto. Qed.

Lemma saveDocument_grows (env : environment) (filename filePath : text) (w : world) :
  grows w (snd (saveDocument env filename filePath w)).
Proof.
  destruct (extractText env filePath) as [content |] eqn:Hx.
  - destruct (db_error env w) eqn:Hdb.
    + unfold saveDocument. rewrite Hx. unfold bind, insert_document.
      rewrite Hdb. left. auto.
    + rewrite (saveDocument_run env filename filePath content w Hx Hdb).
      cbn [snd].
      set (w0 := with_document filename (contentPreview content) w).
      destruct (generateEmbeddingsForDocument_store env content w0)
        as (_ & Hd & He & Hs & _).
      right.
      exists {| doc_id := S (documents_seq w); doc_filename := filename;
                doc_content_preview := contentPreview content;
                doc_upload_date := clock w |}.
      destruct (EmbeddingService.generateEmbeddingsForDocument env content w0)
        as [[[v |] | err |] w1]; cbn [fst snd] in *;
        try (repeat split; [exact Hd | exact Hs | left; exact He]).
      unfold insert_embedding.
      destruct (db_error env w1); cbn [snd];
        [repeat split; [exact Hd | exact Hs | left; exact He] |].
      repeat split; [exact Hd | exact Hs |].
      right. eexists. cbn [embeddings with_embedding]. rewrite He.
      split; reflexivity.
  - unfold saveDocument. rewrite Hx. left. auto.
Qed.

(** What a resolved [saveDocument] has done to the catalog. *)
Lemma saveDocument_resolved (env : environment) (filename filePath : text)
    (w w1 : world) (r : saved) :
  saveDocument env filename filePath w = (Returned r, w1) ->
  extractText env filePath = Some (saved_content r) /\
  db_error env w = false /\
  saved_id r = S (documents_seq w) /\
  documents_seq w1 = S (documents_seq w) /\
  documents w1 = documents w ++
    [{| doc_id := S (documents_seq w); doc_filename := filename;
        doc_content_preview := contentPreview (saved_content r);
        doc_upload_date := clock w |}].
Proof.
  intros Hrun.
  destruct (extractText env filePath) as [content |] eqn:Hx;
    [| unfold saveDocument in Hrun; rewrite Hx in Hrun; discriminate].
  destruct (db_error env w) eqn:Hdb;
    [unfold saveDocument, bind, insert_document in Hrun;
     rewrite Hx, Hdb in Hrun; discriminate |].
  rewrite (saveDocument_run env filename filePath content w Hx Hdb) in Hrun.
  set (w0 := with_document filename (contentPreview content) w) in Hrun.
  destruct (generateEmbeddingsForDocument_store env content w0)
    as (_ & Hd & _ & Hs & _).
  injection Hrun as <- Hw1. cbn [saved_id saved_content].
  repeat split; try reflexivity; subst w1;
    destruct (EmbeddingService.generateEmbeddingsForDocument env content w0)
      as [[[v |] | err |] w']; cbn [fst snd] in *;
    try assumption;
    unfold insert_embedding; destruct (db_error env w'); cbn [snd]; assumption.
Qed.

Lemma process_grows (env : environment) (filename : option text) (w : world) :
  grows w (snd (Routes.process env filename w)).
Proof.
  unfold Routes.process.
  destruct filename as [[| c name] |]; try (left; cbn; auto; fail).
  destruct (file_exists env (Routes.upload_path (c :: name)));
    cbn [negb]; [| left; cbn; auto].
  unfold try_catch, bind, ret.
  pose proof (saveDocument_grows env (c :: name) (Routes.upload_path (c :: name)) w)
    as Hg.
  destruct (saveDocument env (c :: name) (Routes.upload_path (c :: name)) w)
    as [[r | err |] w1]; exact Hg.
Qed.

Lemma search_same_store (env : environment) (body : Routes.search_body) (w : world) :
  same_store w (snd (Routes.search env body w)).
Proof.
  unfold Routes.search.
  destruct (Routes.body_query body) as [[| c q] |]; try apply same_store_refl.
  unfold try_catch, bind, ret, searchDocuments, bind,
    EmbeddingService.generateEmbedding, db_all_search.
  destruct (provider env (calls w) (c :: q)); cbn; [repeat split |].
  destruct (db_error env (log_call (c :: q) w)); [repeat split |].
  destruct (Sql.integer _) as [l |]; [| repeat split].
  destruct (Sql.integer _) as [o |]; repeat split.
Qed.

Lemma listDocuments_same_world (env : environment) (limit page : option Z) (w : world) :
  snd (Routes.listDocuments env limit page w) = w.
Proof.
  unfold Routes.listDocuments, try_catch, bind, ret, Routes.db_all_documents.
  destruct (db_error env w); reflexivity.
Qed.

Lemma step_grows (env : environment) (w w' : world) : step env w w' -> grows w w'.
Proof.
  intros [filename w0 | body w0 | limit page w0 | n w0].
  - apply process_grows.
  - apply same_store_grows. apply search_same_store.
  - rewrite listDocuments_same_world. left. auto.
  - left. auto.
Qed.

Lemma grows_bounded (w w' : world) : grows w w' -> ids_bounded w -> ids_bounded w'.
Proof.
  intros [(Hd & He & Hs) | (d & Hd & Hid & Hs & He)] [Bd Be]; unfold ids_bounded.
  - rewrite Hd, He, Hs. auto.
  - rewrite Hd, Hs. split.
    + intros d' Hin. apply in_app_or in Hin as [Hin | [<- | []]];
        [specialize (Bd d' Hin) |]; lia.
    + intros e Hin.
      destruct He as [He | (e' & He & Hid')]; rewrite He in Hin.
      * specialize (Be e Hin). lia.
      * apply in_app_or in Hin as [Hin | [<- | []]];
          [specialize (Be e Hin) |]; lia.
Qed.

Lemma reachable_bounded (env : environment) (w : world) :
  reachable env w -> ids_bounded w.
Proof.
  induction 1 as [| w w' _ IH Hstep].
  - split; intros ? [].
  - eapply grows_bounded; [eapply step_grows |]; eassumption.
Qed.



End Store.

(** ** Documents without a vector *)

Section Asymmetry.
Import Js DocumentService.





End Asymmetry.

(** ** Vectors of different lengths *)

Section Mismatch.
Import Js EmbeddingService.

Lemma float_nan_add (x : float) : PrimFloat.add PrimFloat.nan x = PrimFloat.nan.
Proof. apply Prim2SF_inj. rewrite add_spec. reflexivity. Qed.

Lemma float_nan_div (x : float) : PrimFloat.div PrimFloat.nan x = PrimFloat.nan.
Proof. apply Prim2SF_inj. rewrite div_spec. reflexivity. Qed.

Lemma column_fold_nan (vs : list (list float)) (i : nat) :
  column_fold vs i PrimFloat.nan = PrimFloat.nan.
Proof.
  unfold column_fold.
  induction vs as [| v vs IH]; [reflexivity |].
  cbn [fold_left].
  destruct (nth_error v i) as [x |]; cbn [add_element add nan JsNumber].
  - now rewrite float_nan_add.
  - exact IH.
Qed.

Lemma column_fold_short (vs : list (list float)) (i : nat) :
  (exists v, In v vs /\ length v <= i) ->
  forall a, column_fold vs i a = PrimFloat.nan.
Proof.
  induction vs as [| v vs IH]; intros (v' & Hin & Hlen) a; [destruct Hin |].
  change (column_fold (v :: vs) i a)
    with (column_fold vs i (add_element a (nth_error v i))).
  destruct Hin as [-> | Hin].
  - apply nth_error_None in Hlen. rewrite Hlen. apply column_fold_nan.
  - apply IH. now exists v'.
Qed.

Lemma column_fold_truncated (n : nat) (vs : list (list float)) (i : nat) :
  i < n ->
  forall a, column_fold (map (firstn n) vs) i a = column_fold vs i a.
Proof.
  intros Hi. unfold column_fold.
  induction vs as [| v vs IH]; intros a; [reflexivity |].
  cbn [map fold_left]. rewrite nth_error_firstn.
  apply Nat.ltb_lt in Hi. rewrite Hi. apply IH.
Qed.

(** C5, as the code has it. When the provider answers every chunk with an
    array, [generateEmbeddingsForDocument] returns a vector whatever the
    lengths of the arrays: it is as long as the first array, a position that
    some later array does not have is NaN, and what later arrays hold beyond
    the length of the first has no effect. *)
Theorem mismatched_lengths_are_averaged (env : environment) (content : text)
    (w w' : world) (chunks : list text) (first : list float)
    (rest : list (list float)) :
  chunkText content default_chunkSize = Some chunks ->
  embed_chunks env chunks [] w = (Returned (map Some (first :: rest)), w') ->
  exists avg,
    generateEmbeddingsForDocument env content w = (Returned (Some avg), w') /\
    length avg = length first /\
    (forall i, i < length first ->
       (exists v, In v rest /\ length v <= i) ->
       nth_error avg i = Some PrimFloat.nan) /\
    averageEmbeddings (map Some (first :: map (firstn (length first)) rest))
      = Returned (Some avg).
Proof.
  intros Hchunks Hembed.
  eexists. split; [| split; [| split]].
  - unfold generateEmbeddingsForDocument, bind, lift.
    rewrite Hchunks, Hembed, averageEmbeddings_arrays. reflexivity.
  - now rewrite length_map, length_seq.
  - intros i Hi (v & Hin & Hlen).
    rewrite nth_error_map, nth_error_seq.
    apply Nat.ltb_lt in Hi. rewrite Hi. cbn [option_map Nat.add].
    rewrite column_fold_short by (exists v; split; [now right | exact Hlen]).
    cbn [div JsNumber]. now rewrite float_nan_div.
  - rewrite averageEmbeddings_arrays.
    do 2 f_equal. cbn [length]. rewrite length_map.
    apply map_ext_in. intros j Hj. apply in_seq in Hj.
    f_equal.
    change (first :: map (firstn (length first)) rest)
      with ([first] ++ map (firstn (length first)) rest).
    change (first :: rest) with ([first] ++ rest).
    unfold column_fold. rewrite !fold_left_app.
    apply (column_fold_truncated (length first) rest j). lia.
Qed.

Lemma mismatched_lengths_are_averaged_witness :
  let env := Sample.env [Responds (Some [1%float; 2%float]);
                         Responds (Some [3%float])] [] in
  let doc := Sample.filler 2001 in
  exists avg w',
    generateEmbeddingsForDocument env doc initial_world = (Returned (Some avg), w') /\
    length avg = 2 /\
    nth_error avg 1 = Some PrimFloat.nan.
Proof.
  intros env doc.
  destruct (mismatched_lengths_are_averaged env doc initial_world
              (snd (generateEmbeddingsForDocument env doc initial_world))
              [firstn 2000 doc; skipn 2000 doc] [1%float; 2%float] [[3%float]])
    as (avg & Hrun & Hlen & Hnan & _).
  - vm_compute. reflexivity.
  - vm_compute. reflexivity.
  - exists avg. eexists. split; [exact Hrun |]. split; [exact Hlen |].
    apply Hnan; [cbn; lia |].
    exists [3%float]. split; [now left | cbn; lia].
Defined.

(** C5 as stated fails: a document of two chunks answered with [[1; 2]] and
    [[3; 4; 5]] gets the vector [[2; 3]], and answered with [[1; 2]] and [[3]]
    it gets [[2; NaN]]; neither run throws. *)
Lemma mismatched_lengths_counterexample :
  let doc := Sample.filler 2001 in
  fst (generateEmbeddingsForDocument
         (Sample.env [Responds (Some [1%float; 2%float]);
                      Responds (Some [3%float; 4%float; 5%float])] [])
         doc initial_world)
    = Returned (Some [2%float; 3%float]) /\
  fst (generateEmbeddingsForDocument
         (Sample.env [Responds (Some [1%float; 2%float]);
                      Responds (Some [3%float])] [])
         doc initial_world)
    = Returned (Some [2%float; PrimFloat.nan]).
Proof. vm_compute. split; reflexivity. Qed.

End Mismatch.

(** ** Ingestion *)

Section Ingestion.
Import Js DocumentService.

Lemma substring_prefix (s : text) (n : nat) : substring s 0 n = firstn n s.
Proof.
  unfold substring, slice.
  now rewrite Nat.min_0_l, Nat.max_0_l, Nat.sub_0_r, skipn_0.
Qed.

Lemma contentPreview_spec (content : text) :
  contentPreview content =
  firstn 500 content ++ (if 500 <? length content then lit "..." else []).
Proof. unfold contentPreview. now rewrite substring_prefix. Qed.

(** C6. When the document row was inserted and the embedding of the text then
    throws, [saveDocument] still resolves with the new document id, the row is
    in the catalog, and the table of vectors is as before: in a reachable
    state it has no vector for the new document. *)
Theorem embedding_failure_keeps_document (env : environment) (w w1 : world)
    (filename filePath content : text) (err : error) :
  reachable env w ->
  extractText env filePath = Some content ->
  db_error env w = false ->
  EmbeddingService.generateEmbeddingsForDocument env content
    (with_document filename (contentPreview content) w) = (Thrown err, w1) ->
  saveDocument env filename filePath w =
    (Returned {| saved_id := S (documents_seq w); saved_content := content |}, w1) /\
  In {| doc_id := S (documents_seq w); doc_filename := filename;
        doc_content_preview := contentPreview content;
        doc_upload_date := clock w |} (documents w1) /\
  embeddings w1 = embeddings w /\
  ~ has_vector w1 (S (documents_seq w)).
Proof.
  intros Hreach Hx Hdb Hfail.
  pose proof (saveDocument_run env filename filePath content w Hx Hdb) as Hrun.
  cbn zeta in Hrun. rewrite Hfail in Hrun. cbn [fst snd] in Hrun.
  pose proof (generateEmbeddingsForDocument_store env content
                (with_document filename (contentPreview content) w))
    as (_ & Hd & He & _).
  rewrite Hfail in Hd, He. cbn [snd] in Hd, He.
  split; [exact Hrun |]. split; [| split].
  - rewrite Hd. apply in_or_app. right. now left.
  - exact He.
  - intros (e & Hin & Hid). rewrite He in Hin.
    destruct (reachable_bounded env w Hreach) as [_ Be].
    specialize (Be e Hin). cbn [embeddings with_document] in Hin. lia.
Qed.

Lemma embedding_failure_keeps_document_witness :
  let files := [(lit "uploads/a.txt", lit "hello")] in
  let w1 := log_call (lit "hello")
              (with_document (lit "a.txt") (lit "hello") initial_world) in
  (* the provider rejects the call *)
  (saveDocument (Sample.env [] files) (lit "a.txt") (lit "uploads/a.txt")
     initial_world =
     (Returned {| saved_id := 1; saved_content := lit "hello" |}, w1) /\
   In {| doc_id := 1; doc_filename := lit "a.txt";
         doc_content_preview := contentPreview (lit "hello");
         doc_upload_date := 0 |} (documents w1) /\
   embeddings w1 = [] /\
   ~ has_vector w1 1) /\
  (* the provider answers without an embedding *)
  (saveDocument (Sample.env [Responds None] files) (lit "a.txt")
     (lit "uploads/a.txt") initial_world =
     (Returned {| saved_id := 1; saved_content := lit "hello" |}, w1) /\
   In {| doc_id := 1; doc_filename := lit "a.txt";
         doc_content_preview := contentPreview (lit "hello");
         doc_upload_date := 0 |} (documents w1) /\
   embeddings w1 = [] /\
   ~ has_vector w1 1).
Proof.
  intros files w1. split.
  - apply (embedding_failure_keeps_document (Sample.env [] files) initial_world w1
             (lit "a.txt") (lit "uploads/a.txt") (lit "hello") EmbeddingFailed).
    + apply reach_refl.
    + reflexivity.
    + reflexivity.
    + vm_compute. reflexivity.
  - apply (embedding_failure_keeps_document (Sample.env [Responds None] files)
             initial_world w1
             (lit "a.txt") (lit "uploads/a.txt") (lit "hello") TypeError).
    + apply reach_refl.
    + reflexivity.
    + reflexivity.
    + vm_compute. reflexivity.
Defined.

(** C7, as the code has it. A successful POST /process of a file with text
    [content] stores as preview of the document the first 500 characters of
    the text, followed by "..." exactly when the text is longer than 500
    characters; [saveDocument] resolves with the document id and the whole
    text, and the response carries the id and, as [preview], the first 200
    characters of the text always followed by "...". *)
Theorem process_preview (env : environment) (w : world) (name content : text) :
  name <> [] ->
  file_exists env (Routes.upload_path name) = true ->
  extractText env (Routes.upload_path name) = Some content ->
  db_error env w = false ->
  exists w',
    saveDocument env name (Routes.upload_path name) w =
      (Returned {| saved_id := S (documents_seq w); saved_content := content |}, w') /\
    Routes.process env (Some name) w =
      (Returned (Routes.Json
         {| Routes.process_message :=
              lit "Document processed and indexed successfully";
            Routes.process_documentId := S (documents_seq w);
            Routes.process_preview := firstn 200 content ++ lit "..." |}), w') /\
    In {| doc_id := S (documents_seq w); doc_filename := name;
          doc_content_preview :=
            firstn 500 content ++ (if 500 <? length content then lit "..." else []);
          doc_upload_date := clock w |} (documents w').
Proof.
  intros Hname Hfile Hx Hdb.
  pose proof (saveDocument_run env name (Routes.upload_path name) content w Hx Hdb)
    as Hrun.
  cbn zeta in Hrun.
  eexists. split; [exact Hrun |]. split.
  - destruct name as [| c name]; [congruence |].
    unfold Routes.process. rewrite Hfile. cbn [negb].
    unfold try_catch, bind, ret. rewrite Hrun.
    cbn [saved_id saved_content]. now rewrite substring_prefix.
  - destruct (saveDocument_resolved env name (Routes.upload_path name) w _ _ Hrun)
      as (_ & _ & _ & _ & Hd).
    rewrite Hd. cbn [saved_content]. rewrite contentPreview_spec.
    apply in_or_app. right. now left.
Qed.

Lemma process_preview_witness :
  let w' := snd (Routes.process Sample.twins (Some (lit "a.txt")) initial_world) in
  Routes.process Sample.twins (Some (lit "a.txt")) initial_world =
    (Returned (Routes.Json
       {| Routes.process_message :=
            lit "Document processed and indexed successfully";
          Routes.process_documentId := 1;
          Routes.process_preview := lit "hello..." |}), w') /\
  map doc_content_preview (documents w') = [lit "hello"].
Proof.
  intros w'.
  destruct (process_preview Sample.twins initial_world (lit "a.txt") (lit "hello"))
    as (w1 & _ & Hrun & _).
  - discriminate.
  - reflexivity.
  - reflexivity.
  - reflexivity.
  - unfold w'. rewrite Hrun. split; [reflexivity |].
    apply (f_equal snd) in Hrun. cbn [snd] in Hrun. rewrite <- Hrun.
    vm_compute. reflexivity.
Defined.

(** C7 as stated fails: for a file whose text is "hello" the stored preview
    is "hello", and the [preview] of the response is "hello...". *)
Lemma process_preview_counterexample :
  let run := Routes.process Sample.twins (Some (lit "a.txt")) initial_world in
  fst run =
    Returned (Routes.Json
      {| Routes.process_message :=
           lit "Document processed and indexed successfully";
         Routes.process_documentId := 1;
         Routes.process_preview := lit "hello..." |}) /\
  contentPreview (lit "hello") = lit "hello" /\
  map doc_content_preview (documents (snd run)) = [lit "hello"].
Proof. vm_compute. repeat split. Qed.

(** C8. On the empty text [generateEmbeddingsForDocument] returns null and
    leaves the world as it is: no call reaches the provider. [saveDocument]
    of a file with empty text resolves with the new document id, having
    inserted the document row and nothing else. *)
Theorem empty_text_no_embedding (env : environment) (w : world)
    (filename filePath : text) :
  extractText env filePath = Some [] ->
  db_error env w = false ->
  EmbeddingService.generateEmbeddingsForDocument env [] w = (Returned None, w) /\
  saveDocument env filename filePath w =
    (Returned {| saved_id := S (documents_seq w); saved_content := [] |},
     with_document filename [] w) /\
  calls (with_document filename [] w) = calls w /\
  embeddings (with_document filename [] w) = embeddings w /\
  documents (with_document filename [] w) = documents w ++
    [{| doc_id := S (documents_seq w); doc_filename := filename;
        doc_content_preview := []; doc_upload_date := clock w |}].
Proof.
  intros Hx Hdb.
  split; [reflexivity |].
  split; [| repeat split].
  now rewrite (saveDocument_run env filename filePath [] w Hx Hdb).
Qed.

Lemma empty_text_no_embedding_witness :
  let env := Sample.env [Responds (Some [1%float])] [(lit "uploads/e.txt", [])] in
  EmbeddingService.generateEmbeddingsForDocument env [] initial_world
    = (Returned None, initial_world) /\
  saveDocument env (lit "e.txt") (lit "uploads/e.txt") initial_world =
    (Returned {| saved_id := 1; saved_content := [] |},
     with_document (lit "e.txt") [] initial_world) /\
  calls (with_document (lit "e.txt") [] initial_world) = [] /\
  embeddings (with_document (lit "e.txt") [] initial_world) = [] /\
  documents (with_document (lit "e.txt") [] initial_world) = [] ++
    [{| doc_id := 1; doc_filename := lit "e.txt";
        doc_content_preview := []; doc_upload_date := 0 |}].
Proof.
  intros env.
  apply (empty_text_no_embedding env initial_world (lit "e.txt") (lit "uploads/e.txt"));
    reflexivity.
Defined.

End Ingestion.


(** * Further properties of the code *)

(** ** chunkText at its edges *)

Section ChunkEdges.
Import Js EmbeddingService.

Lemma chunkText_loop_nonempty (t : text) (c : nat) :
  0 < c ->
  forall fuel i chunks result,
    Forall (fun chunk => chunk <> []) chunks ->
    chunkText_loop fuel t c i chunks = Some result ->
    Forall (fun chunk => chunk <> []) result.
Proof.
  intros Hc fuel.
  induction fuel as [| fuel IH]; intros i chunks result Hall Hrun.
  - unfold chunkText_loop in Hrun.
    destruct (i <? length t); [discriminate | now injection Hrun as <-].
  - destruct (Nat.le_gt_cases (length t) i) as [Hi | Hi].
    + rewrite chunkText_loop_exit in Hrun by exact Hi. now injection Hrun as <-.
    + rewrite chunkText_loop_iter in Hrun by exact Hi.
      apply IH in Hrun; [exact Hrun |].
      apply Forall_app. split; [exact Hall |].
      constructor; [| constructor].
      intros Hempty. apply (f_equal (@length ascii)) in Hempty.
      rewrite slice_length in Hempty. cbn in Hempty. lia.
Qed.

(** X2. For a positive chunk size no chunk is empty, and there is no chunk at
    all exactly when the text is empty: the provider is never sent an empty
    chunk. *)
Theorem chunkText_chunks_nonempty (t : text) (c : nat) (chunks : list text) :
  0 < c ->
  chunkText t c = Some chunks ->
  Forall (fun chunk => chunk <> []) chunks /\ (chunks = [] <-> t = []).
Proof.
  intros Hc Hrun. split.
  - eapply (chunkText_loop_nonempty t c Hc); [| exact Hrun]. constructor.
  - destruct (chunkText_loop_spec t c Hc (length t) 0 []) as (cs & Hrun' & Hcat & _);
      [lia |].
    unfold chunkText in Hrun. rewrite Hrun in Hrun'. injection Hrun' as ->.
    cbn in Hcat. split.
    + intros ->. now rewrite <- Hcat.
    + intros ->. unfold chunkText in Hrun. cbn in Hrun. now injection Hrun as <-.
Qed.

Lemma chunkText_chunks_nonempty_witness :
  Forall (fun chunk => chunk <> []) [lit "abc"; lit "de"] /\
  ([lit "abc"; lit "de"] = [] <-> lit "abcde" = []).
Proof.
  apply (chunkText_chunks_nonempty (lit "abcde") 3); [lia | reflexivity].
Defined.

End ChunkEdges.

(** ** The calls to the provider *)

Section ProviderCalls.
Import Js EmbeddingService.

Lemma calls_log_calls (ts : list text) :
  forall w, calls (log_calls ts w) = calls w ++ ts.
Proof.
  unfold log_calls.
  induction ts as [| t ts IH]; intros w; cbn [fold_left].
  - now rewrite app_nil_r.
  - rewrite IH. cbn [calls log_call]. now rewrite <- app_assoc.
Qed.

Lemma embed_chunks_answered (env : environment) (chunks : list text) :
  forall acc w,
    (forall j, j < length chunks ->
       exists e, provider env (calls w ++ firstn j chunks) (nth j chunks [])
                 = Responds e) ->
    exists embs,
      embed_chunks env chunks acc w = (Returned (acc ++ embs), log_calls chunks w) /\
      length embs = length chunks /\
      forall j, j < length chunks ->
        provider env (calls w ++ firstn j chunks) (nth j chunks [])
        = Responds (nth j embs None).
Proof.
  induction chunks as [| chunk rest IH]; intros acc w Hans.
  - exists []. cbn. rewrite app_nil_r. repeat split. intros j Hj. lia.
  - destruct (Hans 0) as [e He]; [cbn; lia |].
    cbn [firstn nth] in He. rewrite app_nil_r in He.
    destruct (IH (acc ++ [e]) (log_call chunk w)) as (embs & Hrun & Hlen & Hnth).
    { intros j Hj. destruct (Hans (S j)) as [e' He']; [cbn; lia |].
      exists e'. cbn [calls log_call]. rewrite <- app_assoc. exact He'. }
    exists (e :: embs). split; [| split; [cbn; now rewrite Hlen |]].
    + cbn [embed_chunks]. unfold bind, generateEmbedding. rewrite He.
      rewrite Hrun, <- app_assoc. reflexivity.
    + intros [| j] Hj.
      * cbn [firstn nth]. now rewrite app_nil_r.
      * cbn [firstn nth]. cbn [length] in Hj.
        specialize (Hnth j ltac:(lia)).
        cbn [calls log_call] in Hnth. rewrite <- app_assoc in Hnth. exact Hnth.
Qed.

Lemma embed_chunks_rejected (env : environment) (chunks : list text) :
  forall k acc w,
    k < length chunks ->
    (forall j, j < k ->
       exists e, provider env (calls w ++ firstn j chunks) (nth j chunks [])
                 = Responds e) ->
    provider env (calls w ++ firstn k chunks) (nth k chunks []) = Rejects ->
    embed_chunks env chunks acc w =
    (Thrown EmbeddingFailed, log_calls (firstn (S k) chunks) w).
Proof.
  induction chunks as [| chunk rest IH]; intros k acc w Hk Hans Hrej;
    [cbn in Hk; lia |].
  cbn [embed_chunks]. unfold bind, generateEmbedding.
  destruct k as [| k].
  - cbn [firstn nth] in Hrej. rewrite app_nil_r in Hrej. now rewrite Hrej.
  - destruct (Hans 0) as [e He]; [lia |].
    cbn [firstn nth] in He. rewrite app_nil_r in He. rewrite He.
    apply (IH k (acc ++ [e]) (log_call chunk w)).
    + cbn in Hk. lia.
    + intros j Hj. destruct (Hans (S j)) as [e' He']; [lia |].
      exists e'. cbn [calls log_call]. rewrite <- app_assoc. exact He'.
    + cbn [calls log_call]. rewrite <- app_assoc. exact Hrej.
Qed.

(** X3. When the provider answers every chunk, [generateEmbeddingsForDocument]
    posts each chunk of the text exactly once, in the order of the text, and
    averages the answers: one per chunk, in the order of the chunks, answer
    [j] being what the provider replied to chunk [j] after the calls that
    came before it. *)
Theorem provider_called_once_per_chunk (env : environment) (content : text)
    (chunks : list text) (w : world) :
  chunkText content default_chunkSize = Some chunks ->
  (forall j, j < length chunks ->
     exists e, provider env (calls w ++ firstn j chunks) (nth j chunks [])
               = Responds e) ->
  exists embs w',
    generateEmbeddingsForDocument env content w = (averageEmbeddings embs, w') /\
    length embs = length chunks /\
    (forall j, j < length chunks ->
       provider env (calls w ++ firstn j chunks) (nth j chunks [])
       = Responds (nth j embs None)) /\
    calls w' = calls w ++ chunks /\
    concat chunks = content.
Proof.
  intros Hchunks Hans.
  destruct (embed_chunks_answered env chunks [] w Hans) as (embs & Hrun & Hlen & Hnth).
  exists embs, (log_calls chunks w).
  split; [| split; [exact Hlen | split; [exact Hnth | split; [apply calls_log_calls |]]]].
  - unfold generateEmbeddingsForDocument, bind, lift.
    now rewrite Hchunks, Hrun.
  - destruct (chunkText_default content) as (cs & Hcs & Hcat & _).
    rewrite Hchunks in Hcs. now injection Hcs as <-.
Qed.

Lemma provider_called_once_per_chunk_witness :
  let doc := Sample.filler 4001 in
  let chunks := [firstn 2000 doc; firstn 2000 (skipn 2000 doc); skipn 4000 doc] in
  let env := Sample.env [Responds (Some [1%float]); Responds (Some [2%float]);
                         Responds (Some [3%float])] [] in
  exists w',
    generateEmbeddingsForDocument env doc initial_world
      = (Returned (Some [2%float]), w') /\
    calls w' = chunks.
Proof.
  intros doc chunks env.
  destruct (provider_called_once_per_chunk env doc chunks initial_world)
    as (embs & w' & Hrun & Hlen & Hnth & Hcalls & _).
  - vm_compute. reflexivity.
  - intros [| [| [| j]]] Hj; cbn in Hj; try lia.
    + exists (Some [1%float]). vm_compute. reflexivity.
    + exists (Some [2%float]). vm_compute. reflexivity.
    + exists (Some [3%float]). vm_compute. reflexivity.
  - exists w'. split; [| exact Hcalls].
    rewrite Hrun. f_equal.
    destruct embs as [| e0 [| e1 [| e2 [| e3 embs]]]]; try discriminate Hlen.
    pose proof (Hnth 0 ltac:(cbn; lia)) as H0.
    pose proof (Hnth 1 ltac:(cbn; lia)) as H1.
    pose proof (Hnth 2 ltac:(cbn; lia)) as H2.
    vm_compute in H0, H1, H2.
    injection H0 as <-. injection H1 as <-. injection H2 as <-.
    vm_compute. reflexivity.
Defined.

(** X4. The chunks are posted one after the other and the first rejected call
    ends the run: when the provider answers the first [k] chunks and rejects
    the next, the embedding fails with 'Failed to generate embedding' after
    exactly [k + 1] calls, and no later chunk is posted. *)
Theorem first_rejection_stops_the_calls (env : environment) (content : text)
    (chunks : list text) (w : world) (k : nat) :
  chunkText content default_chunkSize = Some chunks ->
  k < length chunks ->
  (forall j, j < k ->
     exists e, provider env (calls w ++ firstn j chunks) (nth j chunks [])
               = Responds e) ->
  provider env (calls w ++ firstn k chunks) (nth k chunks []) = Rejects ->
  exists w',
    generateEmbeddingsForDocument env content w = (Thrown EmbeddingFailed, w') /\
    calls w' = calls w ++ firstn (S k) chunks /\
    same_store w w'.
Proof.
  intros Hchunks Hk Hans Hrej.
  exists (log_calls (firstn (S k) chunks) w).
  assert (Hrun : generateEmbeddingsForDocument env content w =
                 (Thrown EmbeddingFailed, log_calls (firstn (S k) chunks) w)).
  { unfold generateEmbeddingsForDocument, bind, lift.
    now rewrite Hchunks, (embed_chunks_rejected env chunks k [] w Hk Hans Hrej). }
  split; [exact Hrun | split; [apply calls_log_calls |]].
  pose proof (generateEmbeddingsForDocument_store env content w) as [_ Hst].
  now rewrite Hrun in Hst.
Qed.

Lemma first_rejection_stops_the_calls_witness :
  let doc := Sample.filler 4001 in
  let env := Sample.env [Responds (Some [1%float])] [] in
  exists w',
    generateEmbeddingsForDocument env doc initial_world
      = (Thrown EmbeddingFailed, w') /\
    calls w' = [] ++ [firstn 2000 doc; firstn 2000 (skipn 2000 doc)] /\
    same_store initial_world w'.
Proof.
  intros doc env.
  apply (first_rejection_stops_the_calls env doc
           [firstn 2000 doc; firstn 2000 (skipn 2000 doc); skipn 4000 doc]
           initial_world 1).
  - vm_compute. reflexivity.
  - cbn. lia.
  - intros [| j] Hj; [| lia].
    exists (Some [1%float]). vm_compute. reflexivity.
  - vm_compute. reflexivity.
Defined.

End ProviderCalls.

(** ** Replies without an embedding *)

Section MissingEmbedding.
Import EmbeddingService.
Context {num : Type} `{Arith num}.

Lemma reduce_column_cases (embeddings : list (option (list num))) (i : nat) :
  (In None embeddings -> reduce_column embeddings i = Thrown TypeError) /\
  (~ In None embeddings -> exists sum, reduce_column embeddings i = Returned sum).
Proof.
  unfold reduce_column.
  set (f := fun (acc : outcome num) (emb : option (list num)) =>
              match acc, emb with
              | Returned sum, Some v => Returned (add_element sum (nth_error v i))
              | Returned _, None => Thrown TypeError
              | stopped, _ => stopped
              end).
  assert (Hstop : forall embs e, fold_left f embs (Thrown e) = Thrown e).
  { induction embs as [| emb embs IH]; intros e; [reflexivity |].
    cbn [fold_left]. destruct emb; apply IH. }
  generalize zero.
  induction embeddings as [| emb embs IH]; intros a.
  - split; [intros [] | intros _; now exists a].
  - cbn [fold_left]. destruct emb as [v |]; cbn [f].
    + destruct (IH (add_element a (nth_error v i))) as [Hin Hnot]. split.
      * intros [Habs | Hrest]; [discriminate | now apply Hin].
      * intros Hno. apply Hnot. intros Hrest. apply Hno. now right.
    + split; [intros _; apply Hstop |].
      intros Hno. exfalso. apply Hno. now left.
Qed.

Lemma map_columns_cases (embeddings : list (option (list num)))
    (first : list num) :
  forall i,
    (In None embeddings -> first <> [] ->
     map_columns embeddings first i = Thrown TypeError) /\
    (~ In None embeddings -> exists avg, map_columns embeddings first i = Returned avg).
Proof.
  induction first as [| x first IH]; intros i.
  - split; [congruence | intros _; now exists []].
  - cbn [map_columns].
    destruct (reduce_column_cases embeddings i) as [Hin Hnot]. split.
    + intros Hnone _. now rewrite Hin.
    + intros Hno. destruct (Hnot Hno) as [sum ->].
      destruct (IH (S i)) as [_ Hrest]. destruct (Hrest Hno) as [avg ->].
      eauto.
Qed.

Lemma missing_embedding_dec (embeddings : list (option (list num))) :
  In None embeddings \/ ~ In None embeddings.
Proof.
  induction embeddings as [| [v |] embs [IH | IH]].
  - right. intros [].
  - left. now right.
  - right. intros [Habs | Hin]; [discriminate | contradiction].
  - left. now left.
  - left. now left.
Qed.

(** X5. Averaging throws exactly when an answer without embedding is read:
    when the first answer has none, or when the first is a non-empty array
    and some later answer has none. It throws nothing but a TypeError, and an
    empty first array hides answers without embedding behind it. *)
Theorem averageEmbeddings_throws_iff (e0 : option (list num))
    (rest : list (option (list num))) :
  (forall err, averageEmbeddings (e0 :: rest) = Thrown err -> err = TypeError) /\
  ((exists err, averageEmbeddings (e0 :: rest) = Thrown err) <->
   e0 = None \/ (exists x first, e0 = Some (x :: first) /\ In None rest)).
Proof.
  destruct e0 as [[| x first] |].
  - cbn. split; [discriminate |]. split.
    + intros [err Habs]. discriminate.
    + intros [Habs | (x & first & Habs & _)]; discriminate.
  - cbn [averageEmbeddings].
    destruct (map_columns_cases (Some (x :: first) :: rest) (x :: first) 0)
      as [Hin Hnot].
    destruct (missing_embedding_dec rest) as [Hnone | Hnone].
    + rewrite Hin; [| now right | discriminate].
      split; [now intros err [= <-] |].
      split; [| now exists TypeError].
      intros _. right. now exists x, first.
    + destruct Hnot as [avg Havg].
      { intros [Habs | Hrest]; [discriminate | contradiction]. }
      rewrite Havg. split; [discriminate |]. split.
      * intros [err Habs]. discriminate.
      * intros [Habs | (x' & first' & _ & Hrest)]; [discriminate | contradiction].
  - cbn. split; [now intros err [= <-] |].
    split; [intros _; now left | now exists TypeError].
Qed.

End MissingEmbedding.

(** ** Invariants of the store *)

Section StoreInvariants.
Import Js DocumentService.

Lemma grows_consistent (w w' : world) :
  grows w w' -> ids_bounded w -> store_consistent w -> store_consistent w'.
Proof.
  intros [(Hd & He & Hs) | (d & Hd & Hid & Hs & He)] [Bd Be] (Nd & Ne & Hcat);
    unfold store_consistent, catalogued.
  - rewrite Hd, He. auto.
  - assert (Hfresh_d : ~ In (doc_id d) (map doc_id (documents w))).
    { intros Hin. apply in_map_iff in Hin as (d' & Heq & Hin).
      specialize (Bd d' Hin). lia. }
    assert (Hfresh_e : ~ In (S (documents_seq w)) (map emb_doc_id (embeddings w))).
    { intros Hin. apply in_map_iff in Hin as (e' & Heq & Hin).
      specialize (Be e' Hin). lia. }
    assert (Hold : forall e, In e (embeddings w) ->
              exists d0, In d0 (documents w ++ [d]) /\ doc_id d0 = emb_doc_id e).
    { intros e Hin. destruct (Hcat e Hin) as (d0 & Hin0 & Heq).
      exists d0. split; [apply in_or_app; now left | exact Heq]. }
    rewrite Hd, map_app. split; [| split].
    + apply NoDup_app; [exact Nd | constructor; [intros [] | constructor] |].
      intros a Hin [<- | []]. contradiction.
    + destruct He as [-> | (e & -> & Hide)]; [exact Ne |].
      rewrite map_app. apply NoDup_app; [exact Ne | constructor; [intros [] | constructor] |].
      intros a Hin [<- | []]. cbn in Hin. rewrite Hide in Hin. contradiction.
    + destruct He as [-> | (e & -> & Hide)]; [exact Hold |].
      intros e' Hin. apply in_app_or in Hin as [Hin | [<- | []]]; [now apply Hold |].
      exists d. split; [apply in_or_app; right; now left | congruence].
Qed.

Lemma ingest_reachable (env : environment) (names : list text) :
  forall w, reachable_from env w (Sample.ingest env names w).
Proof.
  unfold Sample.ingest.
  assert (Hgen : forall w0 w, reachable_from env w0 w ->
            reachable_from env w0
              (fold_left (fun w name => snd (Routes.process env (Some name) w)) names w)).
  { induction names as [| name names IH]; intros w0 w Hreach; [exact Hreach |].
    cbn [fold_left]. apply IH.
    eapply reach_step; [exact Hreach | apply step_process]. }
  intros w. apply Hgen, reach_refl.
Qed.

Lemma reachable_invariant (env : environment) (w : world) :
  reachable env w -> store_consistent w /\ ids_bounded w.
Proof.
  induction 1 as [| w w' _ [IHc IHb] Hstep].
  - split; [| split; intros ? []].
    split; [constructor | split; [constructor | intros ? []]].
  - pose proof (step_grows env w w' Hstep) as Hg.
    split; [now apply (grows_consistent w w') | now apply (grows_bounded w w')].
Qed.

(** X6. In every reachable state of the store the document ids are pairwise
    distinct, no document has more than one vector, every vector belongs to a
    document of the catalog, and no id exceeds the counter of the ids handed
    out. *)
Theorem reachable_store_consistent (env : environment) (w : world) :
  reachable env w ->
  NoDup (map doc_id (documents w)) /\
  NoDup (map emb_doc_id (embeddings w)) /\
  (forall e, In e (embeddings w) ->
     exists d, In d (documents w) /\ doc_id d = emb_doc_id e) /\
  (forall d, In d (documents w) -> doc_id d <= documents_seq w) /\
  (forall e, In e (embeddings w) -> emb_doc_id e <= documents_seq w).
Proof.
  intros Hreach.
  destruct (reachable_invariant env w Hreach) as [(Nd & Ne & Hcat) [Bd Be]].
  split; [exact Nd |]. split; [exact Ne |]. split; [| split; assumption].
  intros e Hin. apply (Hcat e Hin).
Qed.

Lemma reachable_store_consistent_witness :
  NoDup (map doc_id (documents Sample.twelve)) /\
  NoDup (map emb_doc_id (embeddings Sample.twelve)) /\
  (forall e, In e (embeddings Sample.twelve) ->
     exists d, In d (documents Sample.twelve) /\ doc_id d = emb_doc_id e) /\
  (forall d, In d (documents Sample.twelve) ->
     doc_id d <= documents_seq Sample.twelve) /\
  (forall e, In e (embeddings Sample.twelve) ->
     emb_doc_id e <= documents_seq Sample.twelve).
Proof.
  apply (reachable_store_consistent Sample.shelf).
  apply ingest_reachable.
Defined.

(** X7. The store only grows: a later state has the rows of an earlier one,
    unchanged and in the same order, followed by the new rows, and the new
    documents have ids above the earlier counter (ids are never reused). *)
Theorem store_is_append_only (env : environment) (w w' : world) :
  reachable_from env w w' ->
  exists ds es,
    documents w' = documents w ++ ds /\
    embeddings w' = embeddings w ++ es /\
    documents_seq w <= documents_seq w' /\
    Forall (fun d => documents_seq w < doc_id d) ds.
Proof.
  induction 1 as [| w1 w2 _ (ds & es & Hd & He & Hs & Hnew) Hstep].
  - exists [], []. rewrite !app_nil_r. auto.
  - destruct (step_grows env w1 w2 Hstep) as [(Hd' & He' & Hs') | (d & Hd' & Hid & Hs' & He')].
    + exists ds, es. rewrite Hd', He', Hs'. auto.
    + exists (ds ++ [d]).
      exists (es ++ skipn (length (embeddings w1)) (embeddings w2)).
      rewrite Hd', Hd, <- app_assoc. split; [reflexivity |].
      split; [| split; [lia |]].
      * destruct He' as [He' | (e & He' & _)]; rewrite He', He.
        -- rewrite skipn_all. now rewrite app_nil_r.
        -- rewrite skipn_app, skipn_all, Nat.sub_diag.
           cbn [skipn app]. now rewrite <- app_assoc.
      * apply Forall_app. split; [exact Hnew |].
        constructor; [lia | constructor].
Qed.

Lemma store_is_append_only_witness :
  exists ds es,
    documents Sample.twelve = [] ++ ds /\
    embeddings Sample.twelve = [] ++ es /\
    0 <= documents_seq Sample.twelve /\
    Forall (fun d => 0 < doc_id d) ds.
Proof.
  apply (store_is_append_only Sample.shelf initial_world Sample.twelve).
  apply ingest_reachable.
Defined.

(** X8. POST /process changes the world all or nothing: a 200 response means
    exactly one document row was appended, under the id the response carries
    and the file name of the request; any other response is a 400, 404 or 500
    and leaves the tables and the provider untouched. *)
Theorem process_all_or_nothing (env : environment) (filename : option text)
    (w : world) :
  match Routes.process env filename w with
  | (Returned (Routes.Json j), w') =>
      exists d,
        documents w' = documents w ++ [d] /\
        doc_id d = Routes.process_documentId j /\
        doc_id d = S (documents_seq w) /\
        Some (doc_filename d) = filename
  | (Returned (Routes.Status code _), w') =>
      w' = w /\ In code [400; 404; 500]
  | _ => False
  end.
Proof.
  unfold Routes.process.
  destruct filename as [[| c name] |]; try (cbn; intuition; fail).
  destruct (file_exists env (Routes.upload_path (c :: name)));
    cbn [negb]; [| cbn; intuition].
  unfold try_catch, bind, ret.
  destruct (saveDocument env (c :: name) (Routes.upload_path (c :: name)) w)
    as [[r | err |] w1] eqn:Hrun.
  - destruct (saveDocument_resolved env _ _ w w1 r Hrun) as (_ & _ & Hid & _ & Hd).
    eexists. split; [exact Hd |]. cbn. auto.
  - split; [| cbn; auto].
    unfold saveDocument in Hrun.
    destruct (extractText env (Routes.upload_path (c :: name))) as [content |];
      [| now injection Hrun as _ <-].
    unfold bind at 1 in Hrun. unfold insert_document in Hrun.
    destruct (db_error env w) eqn:Hdb; [now injection Hrun as _ <- |].
    exfalso. revert Hrun.
    set (w0 := with_document (c :: name) (contentPreview content) w).
    unfold try_catch, bind, ret.
    destruct (EmbeddingService.generateEmbeddingsForDocument env content w0)
      as [[[v |] | e |] w2]; try discriminate.
    unfold insert_embedding. destruct (db_error env w2); discriminate.
  - pose proof (saveDocument_grows env (c :: name) (Routes.upload_path (c :: name)) w).
    unfold saveDocument in Hrun.
    destruct (extractText env (Routes.upload_path (c :: name))) as [content |];
      [| discriminate].
    unfold bind at 1 in Hrun. unfold insert_document in Hrun.
    destruct (db_error env w) eqn:Hdb; [discriminate |].
    revert Hrun.
    set (w0 := with_document (c :: name) (contentPreview content) w).
    pose proof (generateEmbeddingsForDocument_store env content w0) as [Hnd _].
    unfold try_catch, bind, ret.
    destruct (EmbeddingService.generateEmbeddingsForDocument env content w0)
      as [[[v |] | e |] w2]; cbn [fst] in Hnd; try discriminate; try congruence.
    unfold insert_embedding. destruct (db_error env w2); discriminate.
Qed.

End StoreInvariants.

(** ** What a request leaves behind *)

Section RequestEffects.
Import Js DocumentService.

(** X9. POST /search never writes to the tables. Without a query, or with
    the empty one, it answers 400 and does not contact the provider; with a
    query it posts exactly that query to the provider, once, and answers 500
    when the provider rejects the call or the database fails. *)
Theorem search_effects (env : environment) (body : Routes.search_body) (w : world) :
  same_store w (snd (Routes.search env body w)) /\
  (Routes.body_query body = None \/ Routes.body_query body = Some [] ->
   Routes.search env body w
   = (Returned (Routes.Status 400 (lit "Query is required")), w)) /\
  (forall q,
     Routes.body_query body = Some q -> q <> [] ->
     snd (Routes.search env body w) = log_call q w /\
     (provider env (calls w) q = Rejects \/ db_error env (log_call q w) = true ->
      fst (Routes.search env body w)
      = Returned (Routes.Status 500 (lit "Failed to perform search")))).
Proof.
  split; [apply search_same_store |]. split.
  - unfold Routes.search. intros [-> | ->]; reflexivity.
  - intros q Hq Hne. destruct q as [| c q]; [congruence |].
    unfold Routes.search. rewrite Hq.
    unfold try_catch, bind, ret, searchDocuments, bind,
      EmbeddingService.generateEmbedding, db_all_search, ret.
    destruct (provider env (calls w) (c :: q)) as [| e]; cbn [fst snd].
    + split; [reflexivity | reflexivity].
    + destruct (db_error env (log_call (c :: q) w)); cbn [fst snd];
        [split; reflexivity |].
      destruct (Sql.integer _) as [l |];
        [destruct (Sql.integer _) as [o |] |]; cbn [fst snd];
        (split; [reflexivity |]); intros [Habs | Habs]; discriminate.
Qed.

(** X10. When the text was embedded and the database takes the second
    insert, [saveDocument] stores exactly one new vector: the averaged vector
    with every element rounded to binary32, under the id of the new document
    and the next id of the embeddings table. *)
Theorem vector_stored_under_new_id (env : environment) (w w1 : world)
    (filename filePath content : text) (v : list float) :
  extractText env filePath = Some content ->
  db_error env w = false ->
  EmbeddingService.generateEmbeddingsForDocument env content
    (with_document filename (contentPreview content) w) = (Returned (Some v), w1) ->
  db_error env w1 = false ->
  exists w',
    saveDocument env filename filePath w =
      (Returned {| saved_id := S (documents_seq w); saved_content := content |}, w') /\
    embeddings w' = embeddings w ++
      [{| emb_id := S (embeddings_seq w); emb_doc_id := S (documents_seq w);
          emb_vector := map fround v |}] /\
    has_vector w' (S (documents_seq w)) /\
    length (map fround v) = length v.
Proof.
  intros Hx Hdb Hrun Hdb1.
  pose proof (saveDocument_run env filename filePath content w Hx Hdb) as Hsave.
  cbn zeta in Hsave. rewrite Hrun in Hsave. cbn [fst snd] in Hsave.
  unfold insert_embedding in Hsave. rewrite Hdb1 in Hsave. cbn [snd] in Hsave.
  pose proof (generateEmbeddingsForDocument_store env content
                (with_document filename (contentPreview content) w))
    as (_ & _ & He & _ & Hes & _).
  rewrite Hrun in He, Hes. cbn [snd embeddings embeddings_seq with_document] in He, Hes.
  eexists. split; [exact Hsave |].
  assert (Hemb : embeddings (with_embedding (S (documents_seq w)) (map fround v) w1)
                 = embeddings w ++
                   [{| emb_id := S (embeddings_seq w);
                       emb_doc_id := S (documents_seq w);
                       emb_vector := map fround v |}]).
  { cbn [embeddings with_embedding]. now rewrite He, Hes. }
  split; [exact Hemb |]. split; [| apply length_map].
  eexists. rewrite Hemb. split; [apply in_or_app; right; now left | reflexivity].
Qed.

Lemma vector_stored_under_new_id_witness :
  let env := Fixtures.desk (fun _ => false) in
  exists w',
    saveDocument env (lit "notes.TXT") (lit "uploads/notes.TXT") initial_world =
      (Returned {| saved_id := 1; saved_content := lit "hello" |}, w') /\
    embeddings w' = [] ++
      [{| emb_id := 1; emb_doc_id := 1;
          emb_vector := map fround [1%float; 0%float] |}] /\
    has_vector w' 1 /\
    length (map fround [1%float; 0%float]) = 2.
Proof.
  intros env.
  apply (vector_stored_under_new_id env initial_world
           (log_call (lit "hello")
              (with_document (lit "notes.TXT") (lit "hello") initial_world))
           (lit "notes.TXT") (lit "uploads/notes.TXT") (lit "hello")).
  - reflexivity.
  - reflexivity.
  - vm_compute. reflexivity.
  - reflexivity.
Defined.

(** X11. A failure of the second insert is only logged: when the text was
    embedded but the database refuses the vector, [saveDocument] resolves as
    for a success, POST /process answers 200, and the document is in the
    catalog without a vector. *)
Theorem vector_insert_failure_is_silent (env : environment) (w w1 : world)
    (name content : text) (v : list float) :
  name <> [] ->
  file_exists env (Routes.upload_path name) = true ->
  extractText env (Routes.upload_path name) = Some content ->
  db_error env w = false ->
  EmbeddingService.generateEmbeddingsForDocument env content
    (with_document name (contentPreview content) w) = (Returned (Some v), w1) ->
  db_error env w1 = true ->
  saveDocument env name (Routes.upload_path name) w =
    (Returned {| saved_id := S (documents_seq w); saved_content := content |}, w1) /\
  (exists j, Routes.process env (Some name) w = (Returned (Routes.Json j), w1) /\
             Routes.process_documentId j = S (documents_seq w)) /\
  catalogued w1 (S (documents_seq w)) /\
  embeddings w1 = embeddings w.
Proof.
  intros Hname Hfile Hx Hdb Hrun Hdb1.
  pose proof (saveDocument_run env name (Routes.upload_path name) content w Hx Hdb)
    as Hsave.
  cbn zeta in Hsave. rewrite Hrun in Hsave. cbn [fst snd] in Hsave.
  unfold insert_embedding in Hsave. rewrite Hdb1 in Hsave. cbn [snd] in Hsave.
  pose proof (generateEmbeddingsForDocument_store env content
                (with_document name (contentPreview content) w))
    as (_ & Hd & He & _).
  rewrite Hrun in Hd, He. cbn [snd embeddings documents with_document] in Hd, He.
  split; [exact Hsave |]. split; [| split; [| exact He]].
  - destruct name as [| c name]; [congruence |].
    eexists. unfold Routes.process. rewrite Hfile. cbn [negb].
    unfold try_catch, bind, ret. rewrite Hsave. split; reflexivity.
  - eexists. rewrite Hd. split; [apply in_or_app; right; now left | reflexivity].
Qed.

Lemma vector_insert_failure_is_silent_witness :
  let env := Fixtures.desk Fixtures.fails_after_call in
  let w1 := log_call (lit "hello")
              (with_document (lit "notes.TXT") (lit "hello") initial_world) in
  saveDocument env (lit "notes.TXT") (Routes.upload_path (lit "notes.TXT"))
    initial_world =
    (Returned {| saved_id := 1; saved_content := lit "hello" |}, w1) /\
  (exists j, Routes.process env (Some (lit "notes.TXT")) initial_world
             = (Returned (Routes.Json j), w1) /\
             Routes.process_documentId j = 1) /\
  catalogued w1 1 /\
  embeddings w1 = [].
Proof.
  intros env w1.
  apply (vector_insert_failure_is_silent env initial_world w1
           (lit "notes.TXT") (lit "hello") [1%float; 0%float]).
  - discriminate.
  - reflexivity.
  - reflexivity.
  - reflexivity.
  - vm_compute. reflexivity.
  - reflexivity.
Defined.

End RequestEffects.

(** ** Pages *)

Section Pages.
Import Js DocumentService.

Lemma firstn_add {A} (a b : nat) :
  forall l : list A, firstn (a + b) l = firstn a l ++ firstn b (skipn a l).
Proof.
  induction a as [| a IH]; intros l; [reflexivity |].
  destruct l as [| x l]; cbn [Nat.add firstn skipn app].
  - now rewrite firstn_nil.
  - now rewrite IH.
Qed.

Lemma pages_concat {A} (l : nat) (rows : list A) (n : nat) :
  concat (map (fun k => firstn l (skipn (k * l) rows)) (seq 0 n))
  = firstn (n * l) rows.
Proof.
  induction n as [| n IH]; [reflexivity |].
  rewrite seq_S, map_app, concat_app, IH. cbn [map concat Nat.add].
  rewrite app_nil_r.
  replace (S n * l) with (n * l + l) by lia.
  now rewrite firstn_add.
Qed.

(** X12. Pages tile the ranking: for a positive limit, the results that
    POST /search returns for the pages 1, 2, ..., n of one query asked in the
    same state, with [n * limit < 2^53], are one after the other the first
    [n * limit] rows of the whole ranking; no row is skipped and none comes
    twice. *)
Theorem search_pages_tile_the_ranking (env : environment) (w : world)
    (q : text) (e : option (list float)) (limit : Z) (n : nat) :
  q <> [] ->
  provider env (calls w) q = Responds e ->
  db_error env (log_call q w) = false ->
  (0 < limit)%Z -> (Z.of_nat n * limit < 2 ^ 53)%Z ->
  concat
    (map (fun page =>
            match fst (Routes.search env
                         {| Routes.body_query := Some q;
                            Routes.body_limit := Some limit;
                            Routes.body_page := Some (Z.of_nat page) |} w) with
            | Returned (Routes.Json j) => Routes.search_results j
            | _ => []
            end)
         (seq 1 n))
  = map to_result
      (firstn (n * Z.to_nat limit)
         (ranked_rows env (log_call q w) (float32Array e))).
Proof.
  intros Hq Hprov Hdb Hl Hsmall.
  rewrite <- pages_concat, concat_map, map_map.
  f_equal. rewrite <- seq_shift, map_map.
  apply map_ext_in. intros k Hk. apply in_seq in Hk.
  assert (Hpage : (1 <= Z.of_nat (S k) <= Z.of_nat n)%Z) by lia.
  set (page := Z.of_nat (S k)) in *.
  assert (Hle : (page * limit <= Z.of_nat n * limit)%Z) by nia.
  rewrite (search_run env w _ q e);
    cbn [Routes.body_query Routes.body_limit Routes.body_page];
    try assumption; try reflexivity; try nia.
  cbn [fst Routes.search_results].
  rewrite limit_offset_page by lia.
  replace (Z.to_nat page - 1) with k by (unfold page; lia). reflexivity.
Qed.

Lemma search_pages_tile_the_ranking_witness :
  concat
    (map (fun page =>
            match fst (Routes.search Sample.shelf
                         {| Routes.body_query := Some (lit "hello");
                            Routes.body_limit := Some 5%Z;
                            Routes.body_page := Some (Z.of_nat page) |}
                         Sample.twelve) with
            | Returned (Routes.Json j) => Routes.search_results j
            | _ => []
            end)
         (seq 1 3))
  = map to_result
      (firstn (3 * Z.to_nat 5)
         (ranked_rows Sample.shelf (log_call (lit "hello") Sample.twelve)
            (float32Array (Some [1%float; 0%float])))).
Proof.
  apply (search_pages_tile_the_ranking Sample.shelf Sample.twelve (lit "hello")
           (Some [1%float; 0%float]) 5 3).
  - discriminate.
  - vm_compute. reflexivity.
  - reflexivity.
  - lia.
  - cbn. lia.
Defined.

(** X13. What POST /search does with a page or limit that is not positive,
    as long as [page], [page - 1], [limit] and [(page - 1) * limit] are
    below 2^53 in absolute value: a page of 0 or less gives the results of
    page 1, a limit of 0 gives no result, and a negative limit gives the
    whole ranking on every page from 1 on. *)
Theorem search_odd_pages (env : environment) (w : world)
    (body : Routes.search_body) (q : text) (e : option (list float)) :
  let limit := match Routes.body_limit body with Some l => l | None => 10%Z end in
  let page := match Routes.body_page body with Some p => p | None => 1%Z end in
  Routes.body_query body = Some q -> q <> [] ->
  provider env (calls w) q = Responds e ->
  db_error env (log_call q w) = false ->
  (Z.abs page < 2 ^ 53)%Z -> (Z.abs (page - 1) < 2 ^ 53)%Z ->
  (Z.abs limit < 2 ^ 53)%Z -> (Z.abs ((page - 1) * limit) < 2 ^ 53)%Z ->
  exists rows,
    Routes.search env body w =
    (Returned (Routes.Json
       {| Routes.search_results := map to_result rows;
          Routes.search_page := JsInteger.of_Z page;
          Routes.search_limit := JsInteger.of_Z limit |}),
     log_call q w) /\
    let ranked := ranked_rows env (log_call q w) (float32Array e) in
    ((0 < limit)%Z -> (page <= 0)%Z -> rows = firstn (Z.to_nat limit) ranked) /\
    (limit = 0%Z -> rows = []) /\
    ((limit < 0)%Z -> (1 <= page)%Z -> rows = ranked).
Proof.
  intros limit page Hbody Hq Hprov Hdb Hbp Hbp1 Hbl Hbo.
  eexists. split; [apply (search_run env w body q e); assumption |].
  fold limit page. cbn zeta. unfold Sql.limit_offset.
  split; [| split].
  - intros Hl Hp.
    destruct (limit <? 0)%Z eqn:Hneg; [apply Z.ltb_lt in Hneg; lia |].
    replace (Z.to_nat ((page - 1) * limit)) with 0 by nia. reflexivity.
  - intros ->. cbn. reflexivity.
  - intros Hl Hp.
    apply Z.ltb_lt in Hl. rewrite Hl.
    apply Z.ltb_lt in Hl.
    replace (Z.to_nat ((page - 1) * limit)) with 0 by nia. reflexivity.
Qed.

Lemma search_odd_pages_witness :
  exists rows,
    Routes.search Sample.shelf
      {| Routes.body_query := Some (lit "hello");
         Routes.body_limit := Some (-1)%Z; Routes.body_page := Some 3%Z |}
      Sample.twelve =
    (Returned (Routes.Json
       {| Routes.search_results := map to_result rows;
          Routes.search_page := 3%float; Routes.search_limit := (-1)%float |}),
     log_call (lit "hello") Sample.twelve) /\
    length rows = 12.
Proof.
  destruct (search_odd_pages Sample.shelf Sample.twelve
              {| Routes.body_query := Some (lit "hello");
                 Routes.body_limit := Some (-1)%Z; Routes.body_page := Some 3%Z |}
              (lit "hello") (Some [1%float; 0%float]))
    as (rows & Hrun & _ & _ & Hall).
  - reflexivity.
  - discriminate.
  - vm_compute. reflexivity.
  - reflexivity.
  - cbn. lia.
  - cbn. lia.
  - cbn. lia.
  - cbn. lia.
  - exists rows. split; [exact Hrun |].
    rewrite Hall by (cbn; lia). vm_compute. reflexivity.
Defined.

End Pages.

(** ** What a search and a listing return *)

Section Results.
Import Js DocumentService.

Lemma joined_rows_complete (env : environment) (w : world) (probe : list float)
    (id : nat) :
  catalogued w id -> has_vector w id ->
  exists row, In row (joined_rows env w probe) /\ row_id row = id.
Proof.
  intros (d & Hd & Hid) (e & He & Heid).
  eexists. split.
  - unfold joined_rows. apply in_map_iff. exists (d, e). split; [reflexivity |].
    unfold Sql.join. apply in_flat_map. exists d. split; [exact Hd |].
    apply in_map, filter_In. split; [exact He |].
    apply Nat.eqb_eq. congruence.
  - exact Hid.
Qed.

Lemma in_some_page {A} (rows : list A) (x : A) (limit : Z) :
  In x rows -> (0 < limit)%Z ->
  exists page,
    (0 < page)%Z /\ (page <= Z.of_nat (length rows))%Z /\
    ((page - 1) * limit < Z.of_nat (length rows))%Z /\
    In x (Sql.limit_offset limit ((page - 1) * limit) rows).
Proof.
  intros Hin Hl.
  set (n := Z.to_nat limit).
  assert (Hn : 0 < n) by (unfold n; lia).
  apply In_nth_error in Hin as [k Hk].
  assert (Hlen : k < length rows) by (apply nth_error_Some; congruence).
  assert (Hdiv : k / n * n <= k) by (rewrite Nat.mul_comm; apply Nat.Div0.mul_div_le).
  assert (Hdivk : k / n <= k) by nia.
  exists (Z.of_nat (k / n) + 1)%Z. split; [lia |]. split; [lia |]. split.
  - replace (Z.of_nat (k / n) + 1 - 1)%Z with (Z.of_nat (k / n)) by lia.
    replace limit with (Z.of_nat n) by (unfold n; lia).
    rewrite <- Nat2Z.inj_mul. lia.
  - rewrite limit_offset_page by lia. fold n.
    apply (nth_error_In _ (k mod n)).
    rewrite nth_error_firstn, nth_error_skipn.
    destruct (Nat.ltb_spec (k mod n) n) as [_ | Hbad];
      [| pose proof (Nat.mod_upper_bound k n); lia].
    replace (Z.to_nat (Z.of_nat (k / n) + 1) - 1) with (k / n) by lia.
    rewrite <- Hk. f_equal.
    rewrite (Nat.div_mod_eq k n) at 3. lia.
Qed.

Lemma join_length (ds : list document_row) (es : list embedding_row) :
  length (Sql.join ds es) <= length ds * length es.
Proof.
  unfold Sql.join.
  induction ds as [| d ds IH]; [cbn; lia |].
  cbn [flat_map length]. rewrite length_app, length_map.
  pose proof (filter_length_le (fun e => emb_doc_id e =? doc_id d) es). lia.
Qed.

Lemma ranked_rows_length (env : environment) (w : world) (probe : list float) :
  length (ranked_rows env w probe) <= length (documents w) * length (embeddings w).
Proof.
  unfold ranked_rows.
  rewrite (Permutation_length (order_by_perm distance_le _)).
  unfold joined_rows. rewrite length_map. apply join_length.
Qed.

(** X14. A catalogued document with a stored vector is found: for every
    query that the provider and the database answer and every positive
    limit, it is in the results of some page, the tables and the limit being
    of a size for which the page arithmetic is exact
    ([documents * embeddings + limit < 2^53]). *)
Theorem stored_vector_is_found (env : environment) (w : world) (id : nat)
    (q : text) (e : option (list float)) (limit : Z) :
  catalogued w id -> has_vector w id ->
  q <> [] -> (0 < limit)%Z ->
  (Z.of_nat (length (documents w) * length (embeddings w)) + limit < 2 ^ 53)%Z ->
  provider env (calls w) q = Responds e ->
  db_error env (log_call q w) = false ->
  exists page j,
    (0 < page)%Z /\
    fst (Routes.search env
           {| Routes.body_query := Some q; Routes.body_limit := Some limit;
              Routes.body_page := Some page |} w)
      = Returned (Routes.Json j) /\
    In id (map res_id (Routes.search_results j)).
Proof.
  intros Hcat Hvec Hq Hl Hsize Hprov Hdb.
  destruct (joined_rows_complete env (log_call q w) (float32Array e) id Hcat Hvec)
    as (row & Hin & Hid).
  apply (Permutation_in _ (Permutation_sym (order_by_perm distance_le _))) in Hin.
  fold (ranked_rows env (log_call q w) (float32Array e)) in Hin.
  destruct (in_some_page _ row limit Hin Hl) as (page & Hp & Hple & Hoff & Hpage).
  pose proof (ranked_rows_length env (log_call q w) (float32Array e)) as Hlen.
  cbn [documents embeddings log_call] in Hlen.
  exists page. eexists. split; [exact Hp |].
  rewrite (search_run env w _ q e);
    cbn [Routes.body_query Routes.body_limit Routes.body_page];
    try assumption; try reflexivity; try nia.
  cbn [fst Routes.search_results].
  split; [reflexivity |].
  cbn [Routes.search_results].
  rewrite map_map. rewrite <- Hid.
  apply (in_map (fun r => res_id (to_result r))). exact Hpage.
Qed.

Lemma catalogued_by_test (w : world) (id : nat) :
  existsb (fun d => doc_id d =? id) (documents w) = true -> catalogued w id.
Proof.
  intros Htest. apply existsb_exists in Htest as (d & Hin & Hid).
  exists d. split; [exact Hin | now apply Nat.eqb_eq].
Qed.

Lemma has_vector_by_test (w : world) (id : nat) :
  existsb (fun e => emb_doc_id e =? id) (embeddings w) = true -> has_vector w id.
Proof.
  intros Htest. apply existsb_exists in Htest as (e & Hin & Hid).
  exists e. split; [exact Hin | now apply Nat.eqb_eq].
Qed.

Lemma stored_vector_is_found_witness :
  exists page j,
    (0 < page)%Z /\
    fst (Routes.search Sample.shelf
           {| Routes.body_query := Some (lit "hello");
              Routes.body_limit := Some 5%Z; Routes.body_page := Some page |}
           Sample.twelve)
      = Returned (Routes.Json j) /\
    In 1 (map res_id (Routes.search_results j)).
Proof.
  apply (stored_vector_is_found Sample.shelf Sample.twelve 1 (lit "hello")
           (Some [1%float; 0%float]) 5).
  - apply catalogued_by_test. vm_compute. reflexivity.
  - apply has_vector_by_test. vm_compute. reflexivity.
  - discriminate.
  - lia.
  - vm_compute. reflexivity.
  - vm_compute. reflexivity.
  - vm_compute. reflexivity.
Defined.

Lemma filter_at_most_one (es : list embedding_row) (id : nat) :
  NoDup (map emb_doc_id es) ->
  length (filter (fun e => emb_doc_id e =? id) es) <= 1.
Proof.
  induction es as [| e es IH]; intros Hnd; [cbn; lia |].
  cbn [map] in Hnd. apply NoDup_cons_iff in Hnd as [Hnotin Hnd].
  cbn [filter]. destruct (Nat.eqb_spec (emb_doc_id e) id) as [Heq | Hneq];
    [| now apply IH].
  cbn [length].
  assert (Hnone : filter (fun e0 => emb_doc_id e0 =? id) es = []).
  { destruct (filter (fun e0 => emb_doc_id e0 =? id) es) as [| e' rest] eqn:Hf;
      [reflexivity |].
    exfalso. apply Hnotin.
    assert (Hin : In e' (filter (fun e0 => emb_doc_id e0 =? id) es))
      by (rewrite Hf; now left).
    apply filter_In in Hin as [Hin He']. apply Nat.eqb_eq in He'.
    apply in_map_iff. exists e'. split; [congruence | exact Hin]. }
  rewrite Hnone. cbn. lia.
Qed.

Lemma join_ids_distinct (ds : list document_row) (es : list embedding_row) :
  NoDup (map doc_id ds) -> NoDup (map emb_doc_id es) ->
  NoDup (map (fun de : document_row * embedding_row => doc_id (fst de))
             (Sql.join ds es)).
Proof.
  intros Hds Hes. unfold Sql.join.
  induction ds as [| d ds IH]; [constructor |].
  cbn [map] in Hds. apply NoDup_cons_iff in Hds as [Hnotin Hds].
  cbn [flat_map]. rewrite map_app, map_map. cbn [fst].
  apply NoDup_app; [| now apply IH |].
  - pose proof (filter_at_most_one es (doc_id d) Hes) as Hone.
    destruct (filter (fun e => emb_doc_id e =? doc_id d) es) as [| e [| e' rest]];
      cbn in *; [constructor | | lia].
    constructor; [intros [] | constructor].
  - intros a Hin Hin'. apply Hnotin.
    apply in_map_iff in Hin as (e & <- & _).
    apply in_map_iff in Hin' as ([d' e'] & Heq & Hin').
    apply in_flat_map in Hin' as (d'' & Hd'' & Hin').
    apply in_map_iff in Hin' as (e'' & [= <- <-] & _).
    cbn [fst] in Heq. rewrite <- Heq. now apply in_map.
Qed.

Lemma NoDup_limit_offset {A} (limit offset : Z) (rows : list A) :
  NoDup rows -> NoDup (Sql.limit_offset limit offset rows).
Proof.
  intros Hnd. unfold Sql.limit_offset.
  assert (Hskip : forall n (l : list A), NoDup l -> NoDup (skipn n l)).
  { intros n l H. rewrite <- (firstn_skipn n l) in H.
    now apply NoDup_app_remove_l in H. }
  assert (Hfirst : forall n (l : list A), NoDup l -> NoDup (firstn n l)).
  { intros n l H. rewrite <- (firstn_skipn n l) in H.
    now apply NoDup_app_remove_r in H. }
  destruct (limit <? 0)%Z; auto.
Qed.

Lemma limit_offset_map {A B} (f : A -> B) (limit offset : Z) (rows : list A) :
  map f (Sql.limit_offset limit offset rows) = Sql.limit_offset limit offset (map f rows).
Proof.
  unfold Sql.limit_offset.
  destruct (limit <? 0)%Z; now rewrite ?skipn_map, ?firstn_map.
Qed.

(** X15. In a reachable state no search returns a document twice: the ids of
    the results of one response are pairwise distinct. *)
Theorem search_results_are_distinct (env : environment) (w w' : world)
    (body : Routes.search_body) (j : Routes.search_json) :
  reachable env w ->
  Routes.search env body w = (Returned (Routes.Json j), w') ->
  NoDup (map res_id (Routes.search_results j)).
Proof.
  intros Hreach.
  destruct (reachable_invariant env w Hreach) as [(Nd & Ne & _) _].
  unfold Routes.search.
  destruct (Routes.body_query body) as [[| c q] |]; try discriminate.
  unfold try_catch, bind, ret, searchDocuments, bind,
    EmbeddingService.generateEmbedding, db_all_search, ret.
  destruct (provider env (calls w) (c :: q)) as [| e]; [discriminate |].
  destruct (db_error env (log_call (c :: q) w)); [discriminate |].
  destruct (Sql.integer _) as [l |]; [| discriminate].
  destruct (Sql.integer _) as [o |]; [| discriminate].
  intros [= <- _]. cbn [Routes.search_results].
  rewrite map_map.
  change (fun x => res_id (to_result x)) with row_id.
  rewrite limit_offset_map. apply NoDup_limit_offset.
  apply (Permutation_NoDup
           (Permutation_map row_id
              (Permutation_sym (order_by_perm distance_le _)))).
  unfold joined_rows. rewrite map_map.
  cbn [documents embeddings log_call].
  erewrite map_ext; [apply (join_ids_distinct _ _ Nd Ne) |].
  intros [d e0]. reflexivity.
Qed.

Lemma search_results_are_distinct_witness :
  let body := {| Routes.body_query := Some (lit "hello");
                 Routes.body_limit := None; Routes.body_page := None |} in
  exists j w',
    Routes.search Sample.shelf body Sample.twelve = (Returned (Routes.Json j), w') /\
    NoDup (map res_id (Routes.search_results j)).
Proof.
  intros body.
  assert (Hprov : provider Sample.shelf (calls Sample.twelve) (lit "hello")
                  = Responds (Some [1%float; 0%float]))
    by (vm_compute; reflexivity).
  assert (Hq : lit "hello" <> []) by discriminate.
  pose proof (search_run Sample.shelf Sample.twelve body (lit "hello")
                (Some [1%float; 0%float]) eq_refl Hq Hprov eq_refl
                eq_refl eq_refl eq_refl eq_refl) as Hrun.
  cbn zeta in Hrun.
  eexists. eexists. split; [exact Hrun |].
  apply (search_results_are_distinct Sample.shelf Sample.twelve _ body _
           (ingest_reachable Sample.shelf _ initial_world) Hrun).
Defined.

End Results.

(** ** The listing *)

Section Listing.
Import Js.

Lemma StronglySorted_skipn {A} (R : A -> A -> Prop) (n : nat) :
  forall l, StronglySorted R l -> StronglySorted R (skipn n l).
Proof.
  induction n as [| n IH]; intros l Hs; [exact Hs |].
  destruct l as [| x l]; [exact Hs |].
  apply IH. now apply StronglySorted_inv in Hs.
Qed.

Lemma StronglySorted_firstn {A} (R : A -> A -> Prop) (n : nat) :
  forall l, StronglySorted R l -> StronglySorted R (firstn n l).
Proof.
  induction n as [| n IH]; intros l Hs; [constructor |].
  destruct l as [| x l]; [constructor |].
  apply StronglySorted_inv in Hs as [Hs Hx].
  cbn [firstn]. constructor; [now apply IH |].
  apply Forall_forall. intros y Hy.
  rewrite Forall_forall in Hx. apply Hx.
  rewrite <- (firstn_skipn n l). apply in_or_app. now left.
Qed.

Lemma StronglySorted_map {A B} (R : A -> A -> Prop) (R' : B -> B -> Prop)
    (f : A -> B) :
  (forall a b, R a b -> R' (f a) (f b)) ->
  forall l, StronglySorted R l -> StronglySorted R' (map f l).
Proof.
  intros Hf l Hs.
  induction Hs as [| x l Hs IH Hx]; cbn [map]; constructor; [exact IH |].
  apply Forall_map. eapply Forall_impl; [| exact Hx]. intros a. apply Hf.
Qed.

(** X16. With the catalog answering and [limit] and [page] written as
    positive decimal integers (50 and 1 when absent) with
    [page * limit < 2^53], GET /documents returns at most [limit] documents,
    every one of them a row of the catalog, ordered from the latest upload
    date to the earliest, and changes nothing. *)
Theorem listDocuments_page (env : environment) (w : world) (limit page : option Z) :
  let l := match limit with Some l => l | None => 50%Z end in
  let p := match page with Some p => p | None => 1%Z end in
  db_error env w = false -> (0 < l)%Z -> (0 < p)%Z -> (p * l < 2 ^ 53)%Z ->
  exists docs,
    Routes.listDocuments env limit page w =
    (Returned (Routes.Json
       {| Routes.list_documents := docs; Routes.list_page := p;
          Routes.list_limit := l |}), w) /\
    length docs <= Z.to_nat l /\
    StronglySorted
      (fun a b => Routes.json_uploadDate b <= Routes.json_uploadDate a) docs /\
    Forall
      (fun j =>
         exists d, In d (documents w) /\
           Routes.json_id j = doc_id d /\ Routes.json_filename j = doc_filename d /\
           Routes.json_preview j = doc_content_preview d /\
           Routes.json_uploadDate j = doc_upload_date d)
      docs.
Proof.
  intros l p Hdb Hl Hp _.
  eexists. split; [| split; [| split]].
  - unfold Routes.listDocuments, try_catch, bind, ret, Routes.db_all_documents.
    fold l p. rewrite Hdb. reflexivity.
  - rewrite length_map, limit_offset_page by assumption.
    rewrite length_firstn. lia.
  - rewrite limit_offset_page by assumption.
    apply (StronglySorted_map
             (fun d1 d2 : document_row =>
                (doc_upload_date d2 <=? doc_upload_date d1) = true)).
    + intros a b Hab. cbn. now apply Nat.leb_le.
    + apply StronglySorted_firstn, StronglySorted_skipn.
      apply (order_by_sorted
               (fun d1 d2 : document_row => doc_upload_date d2 <=? doc_upload_date d1)
               (fun _ => True)).
      * intros a b _ _ Hab. apply Nat.leb_gt in Hab. apply Nat.leb_le. lia.
      * intros a b c Hab Hbc. apply Nat.leb_le in Hab, Hbc. apply Nat.leb_le. lia.
      * apply Forall_forall. auto.
  - apply Forall_map, Forall_forall. intros d Hin.
    apply limit_offset_incl in Hin.
    apply (Permutation_in _ (order_by_perm _ _)) in Hin.
    exists d. cbn. auto.
Qed.

Lemma listDocuments_page_witness :
  exists docs,
    Routes.listDocuments Sample.shelf (Some 5%Z) None Sample.twelve =
    (Returned (Routes.Json
       {| Routes.list_documents := docs; Routes.list_page := 1%Z;
          Routes.list_limit := 5%Z |}), Sample.twelve) /\
    length docs <= 5.
Proof.
  destruct (listDocuments_page Sample.shelf Sample.twelve (Some 5%Z) None)
    as (docs & Hrun & Hlen & _).
  - reflexivity.
  - cbn. lia.
  - cbn. lia.
  - cbn. lia.
  - exists docs. split; [exact Hrun | exact Hlen].
Defined.

End Listing.

(** ** Text extraction and the upload filter *)

Section Extraction.
Import Js.

Lemma text_eqb_eq (a b : text) : JsText.eqb a b = true <-> a = b.
Proof.
  revert b. induction a as [| x a IH]; intros [| y b]; cbn;
    try (split; [discriminate | discriminate]); [split; reflexivity |].
  rewrite andb_true_iff, Ascii.eqb_eq, IH.
  split; [intros [-> ->]; reflexivity | intros [= -> ->]; auto].
Qed.

Lemma text_eqb_neq (a b : text) : a <> b -> JsText.eqb a b = false.
Proof.
  intros Hne. destruct (JsText.eqb a b) eqn:E; [| reflexivity].
  apply text_eqb_eq in E. contradiction.
Qed.

(** X17. A file whose extension, in lower case, is none of .txt, .pdf, .docx,
    .xlsx, .xls and .csv is never ingested: the extraction fails with
    'Failed to extract text: Unsupported file type: ' and the extension,
    whatever the file holds, and POST /process of it answers 500 and leaves
    the world as it was. *)
Theorem unsupported_extension_is_refused (env : environment)
    (libs : TextExtraction.libraries) (w : world) (name : text) :
  let ext := JsText.toLowerCase (TextExtraction.extname libs (Routes.upload_path name)) in
  (forall path, extractText env path = TextExtraction.service libs path) ->
  name <> [] ->
  file_exists env (Routes.upload_path name) = true ->
  ~ In ext [lit ".txt"; lit ".pdf"; lit ".docx"; lit ".xlsx"; lit ".xls"; lit ".csv"] ->
  TextExtraction.extractText libs (Routes.upload_path name)
    = inr (lit "Failed to extract text: " ++ lit "Unsupported file type: " ++ ext) /\
  Routes.process env (Some name) w
    = (Returned (Routes.Status 500 (lit "Failed to process document")), w).
Proof.
  intros ext Henv Hname Hfile Hext.
  assert (Hx : TextExtraction.extractText libs (Routes.upload_path name)
               = inr (lit "Failed to extract text: "
                      ++ lit "Unsupported file type: " ++ ext)).
  { unfold TextExtraction.extractText. fold ext.
    rewrite !text_eqb_neq by (intros E; apply Hext; rewrite E; cbn; tauto).
    reflexivity. }
  split; [exact Hx |].
  destruct name as [| c name]; [congruence |].
  unfold Routes.process. rewrite Hfile. cbn [negb].
  unfold try_catch, bind, ret, DocumentService.saveDocument.
  rewrite Henv. unfold TextExtraction.service. rewrite Hx. reflexivity.
Qed.

Lemma unsupported_extension_is_refused_witness :
  TextExtraction.extractText Fixtures.office (Routes.upload_path (lit "photo.PNG"))
    = inr (lit "Failed to extract text: Unsupported file type: .png") /\
  Routes.process (Fixtures.desk (fun _ => false)) (Some (lit "photo.PNG"))
    initial_world
    = (Returned (Routes.Status 500 (lit "Failed to process document")),
       initial_world).
Proof.
  apply (unsupported_extension_is_refused (Fixtures.desk (fun _ => false))
           Fixtures.office initial_world (lit "photo.PNG")).
  - reflexivity.
  - discriminate.
  - reflexivity.
  - cbn. intros [H | [H | [H | [H | [H | [H | []]]]]]]; discriminate H.
Defined.

Lemma sheets_concat (sheets : list text) :
  forall acc,
    fold_left (fun text csv => text ++ csv ++ TextExtraction.newline) sheets acc
    = acc ++ concat (map (fun csv => csv ++ TextExtraction.newline) sheets).
Proof.
  induction sheets as [| csv sheets IH]; intros acc; cbn [fold_left map concat].
  - now rewrite app_nil_r.
  - rewrite IH. now rewrite <- !app_assoc.
Qed.

(** X18. The extension decides in any letter case, and a workbook (.xlsx or
    .xls) is read sheet by sheet: its text is the CSV of every sheet, in the
    order of the workbook, each followed by a newline; a workbook without
    sheets gives the empty text. *)
Theorem workbook_text (libs : TextExtraction.libraries) (path : text)
    (sheets : list text) :
  let ext := JsText.toLowerCase (TextExtraction.extname libs path) in
  ext = lit ".xlsx" \/ ext = lit ".xls" ->
  TextExtraction.readFile libs path = inl sheets ->
  TextExtraction.extractText libs path
    = inl (concat (map (fun csv => csv ++ TextExtraction.newline) sheets)) /\
  (sheets = [] -> TextExtraction.service libs path = Some []).
Proof.
  intros ext Hext Hread.
  assert (Hx : TextExtraction.extractText libs path
               = inl (concat (map (fun csv => csv ++ TextExtraction.newline) sheets))).
  { unfold TextExtraction.extractText. fold ext.
    unfold TextExtraction.extractFromXlsx. rewrite Hread, sheets_concat.
    destruct Hext as [-> | ->]; reflexivity. }
  split; [exact Hx |].
  intros ->. unfold TextExtraction.service. now rewrite Hx.
Qed.

Lemma workbook_text_witness :
  TextExtraction.extractText Fixtures.office (lit "uploads/book.xls")
    = inl (lit "a,b" ++ TextExtraction.newline ++ lit "c" ++ TextExtraction.newline).
Proof.
  destruct (workbook_text Fixtures.office (lit "uploads/book.xls") [lit "a,b"; lit "c"])
    as [Hx _].
  - right. reflexivity.
  - reflexivity.
  - rewrite Hx. reflexivity.
Defined.

(** X19. The upload filter and the extraction disagree on the extensions:
    a file whose extension is .txt in any letter case is accepted whatever
    its MIME type, and a file whose extension is .xls is rejected whatever
    its MIME type, although the extraction reads .xls workbooks. *)
Theorem fileFilter_txt_and_xls (extname : text -> text) (originalname mimetype : text) :
  (JsText.toLowerCase (extname originalname) = lit ".txt" ->
   Upload.fileFilter extname originalname mimetype = true) /\
  (JsText.toLowerCase (extname originalname) = lit ".xls" ->
   Upload.fileFilter extname originalname mimetype = false).
Proof.
  unfold Upload.fileFilter. split; intros ->.
  - change (Upload.allowedTypes_test (lit ".txt")) with true.
    change (JsText.eqb (lit ".txt") (lit ".txt")) with true.
    now rewrite orb_true_r.
  - reflexivity.
Qed.

End Extraction.

(** ** File names of downloads *)

Section Downloads.
Import Js.

Lemma split_segments_clean (sep : ascii) (s : text) :
  Forall (fun seg => ~ In sep seg) (JsText.split sep s) /\ JsText.split sep s <> [].
Proof.
  induction s as [| c s [IH Hne]]; cbn [JsText.split].
  - split; [constructor; [intros [] | constructor] | discriminate].
  - destruct (Ascii.eqb_spec c sep) as [-> | Hc].
    + split; [constructor; [intros [] | exact IH] | discriminate].
    + destruct (JsText.split sep s) as [| seg segs]; [congruence |].
      apply Forall_cons_iff in IH as [Hseg Hsegs].
      split; [| discriminate].
      constructor; [| exact Hsegs].
      intros [Heq | Hin]; [congruence | contradiction].
Qed.

Lemma last_segment_clean (sep : ascii) (s : text) :
  ~ In sep (last (JsText.split sep s) []).
Proof.
  destruct (split_segments_clean sep s) as [Hall Hne].
  rewrite Forall_forall in Hall. apply Hall.
  destruct (exists_last Hne) as (l & x & ->).
  rewrite last_last. apply in_or_app. right. now left.
Qed.

Lemma digits_clean (d : Decimal.uint) :
  ~ In "/"%char (list_ascii_of_string (NilEmpty.string_of_uint d)).
Proof.
  induction d; cbn; [intros [] | ..];
    intros [Habs | Hin]; try discriminate; contradiction.
Qed.

Lemma decimal_clean (n : nat) : ~ In "/"%char (JsText.decimal n).
Proof.
  unfold JsText.decimal, NilZero.string_of_uint.
  destruct (Nat.to_uint n) eqn:E; try (rewrite <- E; apply digits_clean).
  cbn. intros [Habs | []]. discriminate.
Qed.

(** X20. A file saved by POST /download gets a name without any slash: the
    decimal timestamp, a dash, and the part of the URL after its last slash,
    or 'downloaded_file' when that part is empty. The URL returned for it is
    a slash followed by the path under which POST /process looks the name
    up. *)
Theorem download_filename_is_plain (fetched : text -> bool) (now : nat)
    (url : text) (j : Transfer.file_json) :
  Transfer.download fetched now (Some url) = Routes.Json j ->
  let segment := last (JsText.split "/"%char url) [] in
  Transfer.file_filename j =
    JsText.decimal now ++ lit "-"
      ++ (if JsText.eqb segment [] then lit "downloaded_file" else segment) /\
  ~ In "/"%char (Transfer.file_filename j) /\
  Transfer.file_fileUrl j = "/"%char :: Routes.upload_path (Transfer.file_filename j).
Proof.
  intros Hrun segment. unfold Transfer.download in Hrun.
  destruct url as [| c url]; [discriminate |].
  destruct (fetched (c :: url)); [| discriminate].
  injection Hrun as <-. cbn [Transfer.file_filename Transfer.file_fileUrl].
  assert (Hname : Transfer.originalFilename (c :: url)
                  = if JsText.eqb segment [] then lit "downloaded_file" else segment).
  { unfold Transfer.originalFilename. fold segment. now destruct segment. }
  rewrite Hname. split; [reflexivity |]. split; [| reflexivity].
  intros Hin. apply in_app_or in Hin as [Hin | Hin];
    [now apply (decimal_clean now) |].
  destruct Hin as [Habs | Hin]; [discriminate |].
  destruct segment as [| x seg] eqn:Hseg; cbn [JsText.eqb] in Hin.
  - cbn in Hin. repeat (destruct Hin as [Habs | Hin]; [discriminate |]). exact Hin.
  - apply (last_segment_clean "/"%char (c :: url)). fold segment. now rewrite Hseg.
Qed.

Lemma download_filename_is_plain_witness :
  exists j,
    Transfer.download (fun _ => true) 17 (Some (lit "http://host/a/b/report.pdf"))
      = Routes.Json j /\
    Transfer.file_filename j = lit "17-report.pdf" /\
    ~ In "/"%char (Transfer.file_filename j).
Proof.
  eexists. split; [reflexivity |].
  destruct (download_filename_is_plain (fun _ => true) 17
              (lit "http://host/a/b/report.pdf") _ eq_refl) as (Hname & Hclean & _).
  split; [exact Hname | exact Hclean].
Defined.

End Downloads.
